(** * The decision core of the Inngest event-forwarding plugin

    A shallow embedding of
    [packages/plugins/inngest/src/schema-helpers.ts] and
    [packages/plugins/inngest/src/should-send-event.ts], together with the
    parts of [graphql] ([getOperationAST], [TypeInfo], [visit],
    [visitWithTypeInfo]) and of [@graphql-tools/utils] ([visitResult]) that
    these functions call. *)

From Stdlib Require Import String Ascii List Bool ZArith Lia.
From Stdlib Require Import DecimalString DecimalPos DecimalZ Eqdep_dec.
Import ListNotations.
Open Scope list_scope.
Open Scope string_scope.

Set Implicit Arguments.
Set Warnings "-register-all".

(** ** Completion of a JavaScript call: a value, or a thrown error *)

Inductive JsError :=
| TypeError (message : string)
| Error (message : string).

Inductive Outcome (A : Type) :=
| Returns (a : A)
| Throws (e : JsError).
Arguments Returns {A} a.
Arguments Throws {A} e.

Definition bindO {A B} (o : Outcome A) (k : A -> Outcome B) : Outcome B :=
  match o with
  | Returns a => k a
  | Throws e => Throws e
  end.

(** The logger collaborator: the lines handed to [logger.warn], oldest first. *)
Definition Logger := list string.

(** A call that may warn and may throw: the lines warned before a throw stay
    in the log. *)
Definition M (A : Type) := Logger -> Outcome A * Logger.

Definition ret {A} (a : A) : M A := fun log => (Returns a, log).
Definition warn (line : string) : M unit := fun log => (Returns tt, (log ++ [line])%list).
Definition lift {A} (o : Outcome A) : M A := fun log => (o, log).
Definition bind {A B} (m : M A) (k : A -> M B) : M B :=
  fun log =>
    match m log with
    | (Returns a, log') => k a log'
    | (Throws e, log') => (Throws e, log')
    end.

Declare Scope js_scope.
Delimit Scope js_scope with js.
Notation "x <- m ;; k" := (bind m (fun x => k))
  (at level 61, m at next level, right associativity) : js_scope.
Notation "m ;;; k" := (bind m (fun _ => k))
  (at level 61, right associativity) : js_scope.

(** ** JavaScript values of an execution result *)

(** The numbers of the embedding are the safe integers, from
    -(2^53 - 1) to 2^53 - 1: those JavaScript prints digit for digit in plain
    decimal. A number with a fraction, or beyond that range (printed with an
    exponent or with rounded digits), is not a value of the embedding. *)
Definition MAX_SAFE_INTEGER : Z := 9007199254740991.

Record SafeInteger := {
  integerValue : Z;
  isSafe : (Z.abs integerValue <=? MAX_SAFE_INTEGER)%Z = true
}.

Inductive JsValue :=
| JsUndefined
| JsNull
| JsBool (b : bool)
| JsNumber (n : SafeInteger)
| JsString (s : string)
| JsArray (items : list JsValue)
| JsObject (props : list (string * JsValue)).

(** [arr.join(sep)]. *)
Fixpoint join (sep : string) (l : list string) : string :=
  match l with
  | [] => ""
  | [s] => s
  | s :: rest => s ++ sep ++ join sep rest
  end.

(** [String(n)] for a safe integer: its decimal digits, after a minus sign
    when it is negative. *)
Definition numberToString (n : SafeInteger) : string :=
  NilZero.string_of_int (Z.to_int (integerValue n)).

(** [String(v)], which is what a template literal [`${v}`] applies. *)
Fixpoint toString (v : JsValue) : string :=
  match v with
  | JsUndefined => "undefined"
  | JsNull => "null"
  | JsBool true => "true"
  | JsBool false => "false"
  | JsNumber n => numberToString n
  | JsString s => s
  | JsArray items =>
      join "," (map (fun item =>
                       match item with
                       | JsUndefined | JsNull => ""
                       | _ => toString item
                       end) items)
  | JsObject _ => "[object Object]"
  end.

Definition boolToString (b : bool) : string := if b then "true" else "false".

(** [`${s}`] for a [string | undefined]. *)
Definition optToString (s : option string) : string :=
  match s with
  | Some s => s
  | None => "undefined"
  end.

(** [arr.includes(x)] on strings. *)
Definition includes (l : list string) (x : string) : bool :=
  existsb (String.eqb x) l.

(** [object[key]]: own property lookup, [undefined] when absent (and on a
    non-object no own property named by the keys used here). *)
Fixpoint getProp (props : list (string * JsValue)) (key : string) : JsValue :=
  match props with
  | [] => JsUndefined
  | (k, v) :: rest => if String.eqb k key then v else getProp rest key
  end.

(** ** The query document *)

(** [OperationTypeNode]; its members are the strings 'query', 'mutation' and
    'subscription'. *)
Inductive OperationTypeNode := QUERY | MUTATION | SUBSCRIPTION.

Definition operationTypeString (o : OperationTypeNode) : string :=
  match o with
  | QUERY => "query"
  | MUTATION => "mutation"
  | SUBSCRIPTION => "subscription"
  end.

(** Selections. Arguments, directives and variables are left out: no [Field]
    node occurs under them and [TypeInfo] keeps them on stacks of their own.
    An absent selection set and an empty one are both [[]]. *)
Inductive SelectionNode :=
| Field (alias : option string) (name : string) (selectionSet : list SelectionNode)
| FragmentSpread (name : string)
| InlineFragment (typeCondition : option string) (selectionSet : list SelectionNode).

Inductive DefinitionNode :=
| OperationDefinition (operation : OperationTypeNode) (name : option string)
                      (selectionSet : list SelectionNode)
| FragmentDefinition (name : string) (typeCondition : string)
                     (selectionSet : list SelectionNode)
| TypeSystemDefinition.

Record DocumentNode := { definitions : list DefinitionNode }.

(** ** The schema *)

Inductive GraphQLType :=
| NamedType (name : string)
| ListType (ofType : GraphQLType)
| NonNullType (ofType : GraphQLType).

Fixpoint getNamedType (t : GraphQLType) : string :=
  match t with
  | NamedType n => n
  | ListType t' | NonNullType t' => getNamedType t'
  end.

Definition getNullableType (t : GraphQLType) : GraphQLType :=
  match t with
  | NonNullType t' => t'
  | _ => t
  end.

Inductive TypeKind := SCALAR | OBJECT | INTERFACE | UNION | ENUM | INPUT_OBJECT.

Record GraphQLNamedType := {
  kind : TypeKind;
  fields : list (string * GraphQLType);   (* getFields(), objects and interfaces *)
  possibleTypes : list string             (* getPossibleTypes(), abstract types *)
}.

Record GraphQLSchema := {
  queryType : option string;
  mutationType : option string;
  subscriptionType : option string;
  typeMap : list (string * GraphQLNamedType)
}.

Fixpoint assoc {V} (l : list (string * V)) (key : string) : option V :=
  match l with
  | [] => None
  | (k, v) :: rest => if String.eqb k key then Some v else assoc rest key
  end.

Definition leafType (k : TypeKind) : GraphQLNamedType :=
  {| kind := k; fields := []; possibleTypes := [] |}.

Definition objectType (fs : list (string * GraphQLType)) : GraphQLNamedType :=
  {| kind := OBJECT; fields := fs; possibleTypes := [] |}.

Definition nn (name : string) : GraphQLType := NonNullType (NamedType name).
Definition nnList (name : string) : GraphQLType :=
  NonNullType (ListType (NonNullType (NamedType name))).

(** [introspectionTypes] of graphql: every schema carries them. *)
Definition introspectionTypes : list (string * GraphQLNamedType) :=
  [ ("__Schema", objectType
       [ ("description", NamedType "String"); ("types", nnList "__Type");
         ("queryType", nn "__Type"); ("mutationType", NamedType "__Type");
         ("subscriptionType", NamedType "__Type");
         ("directives", nnList "__Directive") ]);
    ("__Directive", objectType
       [ ("name", nn "String"); ("description", NamedType "String");
         ("isRepeatable", nn "Boolean");
         ("locations", nnList "__DirectiveLocation");
         ("args", nnList "__InputValue") ]);
    ("__DirectiveLocation", leafType ENUM);
    ("__Type", objectType
       [ ("kind", nn "__TypeKind"); ("name", NamedType "String");
         ("description", NamedType "String");
         ("specifiedByURL", NamedType "String");
         ("fields", ListType (nn "__Field"));
         ("interfaces", ListType (nn "__Type"));
         ("possibleTypes", ListType (nn "__Type"));
         ("enumValues", ListType (nn "__EnumValue"));
         ("inputFields", ListType (nn "__InputValue"));
         ("ofType", NamedType "__Type") ]);
    ("__Field", objectType
       [ ("name", nn "String"); ("description", NamedType "String");
         ("args", nnList "__InputValue"); ("type", nn "__Type");
         ("isDeprecated", nn "Boolean");
         ("deprecationReason", NamedType "String") ]);
    ("__InputValue", objectType
       [ ("name", nn "String"); ("description", NamedType "String");
         ("type", nn "__Type"); ("defaultValue", NamedType "String");
         ("isDeprecated", nn "Boolean");
         ("deprecationReason", NamedType "String") ]);
    ("__EnumValue", objectType
       [ ("name", nn "String"); ("description", NamedType "String");
         ("isDeprecated", nn "Boolean");
         ("deprecationReason", NamedType "String") ]);
    ("__TypeKind", leafType ENUM) ].

(** The five built-in scalars. *)
Definition specifiedScalarTypes : list (string * GraphQLNamedType) :=
  map (fun n => (n, leafType SCALAR)) ["String"; "Int"; "Float"; "Boolean"; "ID"].

(** [isIntrospectionType(type)]: by name, as graphql does. *)
Definition isIntrospectionType (name : string) : bool :=
  existsb (fun entry => String.eqb name (fst entry)) introspectionTypes.

(** The type object behind a name: the schema's own types, then the types
    every schema carries. *)
Definition lookupType (schema : GraphQLSchema) (name : string) : option GraphQLNamedType :=
  match assoc (typeMap schema) name with
  | Some t => Some t
  | None => assoc (introspectionTypes ++ specifiedScalarTypes)%list name
  end.

Definition kindOf (schema : GraphQLSchema) (name : string) : option TypeKind :=
  option_map kind (lookupType schema name).

Definition isCompositeType (schema : GraphQLSchema) (name : string) : bool :=
  match kindOf schema name with
  | Some OBJECT | Some INTERFACE | Some UNION => true
  | _ => false
  end.

Definition isObjectType (schema : GraphQLSchema) (name : string) : bool :=
  match kindOf schema name with
  | Some OBJECT => true
  | _ => false
  end.

Definition isAbstractType (schema : GraphQLSchema) (name : string) : bool :=
  match kindOf schema name with
  | Some INTERFACE | Some UNION => true
  | _ => false
  end.

(** [isOutputType] of a possibly wrapped type: decided by the named type. *)
Definition isOutputType (schema : GraphQLSchema) (t : GraphQLType) : bool :=
  match kindOf schema (getNamedType t) with
  | Some INPUT_OBJECT | None => false
  | Some _ => true
  end.

Definition getRootType (schema : GraphQLSchema) (o : OperationTypeNode) : option string :=
  match o with
  | QUERY => queryType schema
  | MUTATION => mutationType schema
  | SUBSCRIPTION => subscriptionType schema
  end.

Definition optEqb (a : option string) (b : string) : bool :=
  match a with
  | Some a => String.eqb a b
  | None => false
  end.

(** [getFieldDef(schema, parentType, fieldNode)] of TypeInfo, giving the
    field's declared type. *)
Definition getFieldDef (schema : GraphQLSchema) (parentType : string) (name : string)
  : option GraphQLType :=
  if String.eqb name "__schema" && optEqb (queryType schema) parentType
  then Some (nn "__Schema")
  else if String.eqb name "__type" && optEqb (queryType schema) parentType
  then Some (NamedType "__Type")
  else if String.eqb name "__typename" && isCompositeType schema parentType
  then Some (nn "String")
  else match lookupType schema parentType with
       | Some t =>
           match kind t with
           | OBJECT | INTERFACE => assoc (fields t) name
           | _ => None
           end
       | None => None
       end.

(** ** TypeInfo: the type and parent-type stacks kept along a visit

    Only the two stacks that [getType] and [getParentType] read are kept; the
    head of a list is the top of the stack. *)

Record TypeInfo := {
  typeStack : list (option GraphQLType);
  parentTypeStack : list (option string)
}.

Definition newTypeInfo : TypeInfo := {| typeStack := []; parentTypeStack := [] |}.

Definition getType (ti : TypeInfo) : option GraphQLType :=
  match typeStack ti with
  | t :: _ => t
  | [] => None
  end.

Definition getParentType (ti : TypeInfo) : option string :=
  match parentTypeStack ti with
  | t :: _ => t
  | [] => None
  end.

(** The node kinds on which [TypeInfo.enter] and [TypeInfo.leave] act. *)
Inductive ASTNode :=
| SELECTION_SET
| FIELD (name : string)
| OPERATION_DEFINITION (operation : OperationTypeNode)
| INLINE_FRAGMENT (typeCondition : option string)
| FRAGMENT_DEFINITION (typeCondition : string).

Definition outputOrUndefined (schema : GraphQLSchema) (t : option GraphQLType)
  : option GraphQLType :=
  match t with
  | Some t => if isOutputType schema t then Some t else None
  | None => None
  end.

Definition pushType (t : option GraphQLType) (ti : TypeInfo) : TypeInfo :=
  {| typeStack := t :: typeStack ti; parentTypeStack := parentTypeStack ti |}.

Definition pushParentType (t : option string) (ti : TypeInfo) : TypeInfo :=
  {| typeStack := typeStack ti; parentTypeStack := t :: parentTypeStack ti |}.

Definition enter (schema : GraphQLSchema) (node : ASTNode) (ti : TypeInfo) : TypeInfo :=
  match node with
  | SELECTION_SET =>
      let namedType := option_map getNamedType (getType ti) in
      pushParentType
        (match namedType with
         | Some n => if isCompositeType schema n then Some n else None
         | None => None
         end) ti
  | FIELD name =>
      let fieldType :=
        match getParentType ti with
        | Some parentType => getFieldDef schema parentType name
        | None => None
        end in
      pushType (outputOrUndefined schema fieldType) ti
  | OPERATION_DEFINITION operation =>
      pushType
        (match getRootType schema operation with
         | Some rootType =>
             if isObjectType schema rootType then Some (NamedType rootType) else None
         | None => None
         end) ti
  | INLINE_FRAGMENT (Some typeCondition)
  | FRAGMENT_DEFINITION typeCondition =>
      pushType (outputOrUndefined schema (Some (NamedType typeCondition))) ti
  | INLINE_FRAGMENT None =>
      pushType
        (outputOrUndefined schema
           (option_map (fun t => NamedType (getNamedType t)) (getType ti))) ti
  end.

Definition leave (node : ASTNode) (ti : TypeInfo) : TypeInfo :=
  match node with
  | SELECTION_SET =>
      {| typeStack := typeStack ti; parentTypeStack := tl (parentTypeStack ti) |}
  | FIELD _ | OPERATION_DEFINITION _ | INLINE_FRAGMENT _ | FRAGMENT_DEFINITION _ =>
      {| typeStack := tl (typeStack ti); parentTypeStack := parentTypeStack ti |}
  end.

(** ** visit(document, visitWithTypeInfo(typeInfo, { Field }))

    What a [Field] callback may hand back here: nothing, or [BREAK]. *)
Inductive VisitorAction := NoAction | BREAK.

Section Visit.
Variable S : Type.
Variable schema : GraphQLSchema.
(** The [Field] callback: it reads the shared [typeInfo], sees the field
    node's name and updates the variables it closes over. *)
Variable onField : TypeInfo -> string -> S -> S * VisitorAction.

(** The result carries the stacks, the callback's variables and whether the
    traversal was broken off. *)
Fixpoint visitSelection (sel : SelectionNode) (ti : TypeInfo) (s : S) {struct sel}
  : TypeInfo * S * bool :=
  let visitAll :=
    fix visitAll (sels : list SelectionNode) (ti : TypeInfo) (s : S) {struct sels} :=
      match sels with
      | [] => (ti, s, false)
      | sel :: rest =>
          let '(ti', s', broke) := visitSelection sel ti s in
          if broke then (ti', s', true) else visitAll rest ti' s'
      end in
  let visitSelectionSet := fun sels ti s =>
    let '(ti', s', broke) := visitAll sels (enter schema SELECTION_SET ti) s in
    if broke then (ti', s', true) else (leave SELECTION_SET ti', s', false) in
  match sel with
  | Field _ name sels =>
      let ti1 := enter schema (FIELD name) ti in
      let (s1, action) := onField ti1 name s in
      match action with
      | BREAK => (leave (FIELD name) ti1, s1, true)
      | NoAction =>
          let '(ti2, s2, broke) := visitSelectionSet sels ti1 s1 in
          if broke then (ti2, s2, true) else (leave (FIELD name) ti2, s2, false)
      end
  | FragmentSpread _ => (ti, s, false)
  | InlineFragment typeCondition sels =>
      let ti1 := enter schema (INLINE_FRAGMENT typeCondition) ti in
      let '(ti2, s2, broke) := visitSelectionSet sels ti1 s in
      if broke then (ti2, s2, true)
      else (leave (INLINE_FRAGMENT typeCondition) ti2, s2, false)
  end.

Fixpoint visitSelections (sels : list SelectionNode) (ti : TypeInfo) (s : S)
  : TypeInfo * S * bool :=
  match sels with
  | [] => (ti, s, false)
  | sel :: rest =>
      let '(ti', s', broke) := visitSelection sel ti s in
      if broke then (ti', s', true) else visitSelections rest ti' s'
  end.

Definition visitSelectionSet (sels : list SelectionNode) (ti : TypeInfo) (s : S)
  : TypeInfo * S * bool :=
  let '(ti', s', broke) := visitSelections sels (enter schema SELECTION_SET ti) s in
  if broke then (ti', s', true) else (leave SELECTION_SET ti', s', false).

Definition visitDefinition (def : DefinitionNode) (ti : TypeInfo) (s : S)
  : TypeInfo * S * bool :=
  match def with
  | OperationDefinition operation _ sels =>
      let node := OPERATION_DEFINITION operation in
      let '(ti', s', broke) := visitSelectionSet sels (enter schema node ti) s in
      if broke then (ti', s', true) else (leave node ti', s', false)
  | FragmentDefinition _ typeCondition sels =>
      let node := FRAGMENT_DEFINITION typeCondition in
      let '(ti', s', broke) := visitSelectionSet sels (enter schema node ti) s in
      if broke then (ti', s', true) else (leave node ti', s', false)
  | TypeSystemDefinition => (ti, s, false)
  end.

Fixpoint visitDefinitions (defs : list DefinitionNode) (ti : TypeInfo) (s : S)
  : TypeInfo * S * bool :=
  match defs with
  | [] => (ti, s, false)
  | def :: rest =>
      let '(ti', s', broke) := visitDefinition def ti s in
      if broke then (ti', s', true) else visitDefinitions rest ti' s'
  end.

(** The variables the callback closes over, once [visit] is back. *)
Definition visit (document : DocumentNode) (typeInfo : TypeInfo) (s : S) : S :=
  snd (fst (visitDefinitions (definitions document) typeInfo s)).
End Visit.

(** ** getOperationAST(documentAST, operationName) of graphql *)

Definition OperationDefinitionNode : Type :=
  OperationTypeNode * option string * list SelectionNode.

Fixpoint getOperationAST_loop (defs : list DefinitionNode) (operationName : option string)
    (operation : option OperationDefinitionNode) : option OperationDefinitionNode :=
  match defs with
  | [] => operation
  | OperationDefinition o name sels :: rest =>
      match operationName with
      | None =>
          match operation with
          | Some _ => None
          | None => getOperationAST_loop rest operationName (Some (o, name, sels))
          end
      | Some wanted =>
          if optEqb name wanted then Some (o, name, sels)
          else getOperationAST_loop rest operationName operation
      end
  | _ :: rest => getOperationAST_loop rest operationName operation
  end.

Definition getOperationAST (document : DocumentNode) (operationName : option string)
  : option OperationDefinitionNode :=
  getOperationAST_loop (definitions document) operationName None.

(** ** What the plugin is handed *)

(** [ExecutionArgs]; the root and context values play no part here. *)
Record ExecutionArgs := {
  schema : GraphQLSchema;
  document : DocumentNode;
  operationName : option string;
  variableValues : option JsValue
}.

(** [OnExecuteEventPayload<ContextType>]. *)
Record OnExecuteEventPayload := { args : ExecutionArgs }.

(** [ExecutionResult]. *)
Record ExecutionResult := {
  data : option JsValue;
  errors : option (list JsValue)
}.

Module Denylist.
Record t := {
  types : option (list string);
  schemaCoordinates : option (list string)
}.
End Denylist.

(** [UseInngestDataOptions] (it extends the event and execute options); an
    optional field left out of the configuration is [None]. *)
Record UseInngestDataOptions := {
  params : OnExecuteEventPayload;
  result : option ExecutionResult;
  eventName : string;
  sendOperations : option (list string);
  sendErrors : option bool;
  sendIntrospection : option bool;
  sendAnonymousOperations : option bool;
  denylist : option Denylist.t
}.

(** Truthiness of a [string | undefined] and of a [boolean | undefined]. *)
Definition truthyString (s : option string) : bool :=
  match s with
  | Some s => negb (String.eqb s "")
  | None => false
  end.

Definition truthyFlag (b : option bool) : bool :=
  match b with
  | Some b => b
  | None => false
  end.

(** Truthiness of an [array | undefined]: every array is truthy. *)
Definition truthyArray {A} (l : option (list A)) : bool :=
  match l with
  | Some _ => true
  | None => false
  end.

(** [b === undefined] for a boolean [b], as in [!x === undefined]. *)
Definition booleanIsUndefined (b : bool) : bool := false.

(** ** schema-helpers.ts *)

Definition getOperation (params : OnExecuteEventPayload) : string :=
  let operationAST :=
    getOperationAST (document (args params)) (operationName (args params)) in
  match operationAST with
  | Some (operation, _, _) => operationTypeString operation
  | None => "unknown"
  end.

Definition isOperationDefinition (definitionNode : DefinitionNode) : bool :=
  match definitionNode with
  | OperationDefinition _ _ _ => true
  | _ => false
  end.

Definition definitionName (definitionNode : DefinitionNode) : option string :=
  match definitionNode with
  | OperationDefinition _ name _ => name
  | FragmentDefinition name _ _ => Some name
  | TypeSystemDefinition => None
  end.

(** The argument is [options.params], the one field of [options] that is
    read. Reading [rootOperation.name] throws when [find] gave [undefined]. *)
Definition getOperationName (params : OnExecuteEventPayload) : Outcome (option string) :=
  let args := args params in
  let rootOperation := find isOperationDefinition (definitions (document args)) in
  if truthyString (operationName args) then Returns (operationName args)
  else match rootOperation with
       | None =>
           Throws (TypeError "Cannot read properties of undefined (reading 'name')")
       | Some rootOperation =>
           if truthyString (definitionName rootOperation)
           then Returns (definitionName rootOperation)
           else Returns None
       end.

Definition sendOperation (options : UseInngestDataOptions) : M bool :=
  ((if booleanIsUndefined (negb (truthyArray (sendOperations options)))
    then warn "No operations are allowed."
    else ret tt) ;;;
   let ops := match sendOperations options with Some l => l | None => [] end in
   let operation := getOperation (params options) in
   if String.eqb operation "unknown"
   then warn "Unknown operation" ;;; ret false
   else
     let allow := includes ops operation in
     (if negb allow
      then operationName <- lift (getOperationName (params options)) ;;
           warn ("Operation " ++ operation ++ " named " ++ optToString operationName
                 ++ " is not allowed")
      else ret tt) ;;;
     ret allow)%js.

Definition isAnonymousOperation (params : OnExecuteEventPayload) : Outcome bool :=
  bindO (getOperationName params)
        (fun name => Returns (match name with None => true | Some _ => false end)).

Definition isIntrospectionQuery_Field (typeInfo : TypeInfo) (fieldName : string)
    (isIntrospection : bool) : bool * VisitorAction :=
  match option_map getNamedType (getType typeInfo) with
  | Some type =>
      if isIntrospectionType type then (true, BREAK) else (isIntrospection, NoAction)
  | None => (isIntrospection, NoAction)
  end.

Definition isIntrospectionQuery (params : OnExecuteEventPayload) : bool :=
  let typeInfo := newTypeInfo in
  let isIntrospection := false in
  visit (schema (args params)) isIntrospectionQuery_Field
        (document (args params)) typeInfo isIntrospection.

Definition denyType_Field (typeDenyList : list string) (typeInfo : TypeInfo)
    (fieldName : string) (hasType : bool) : bool * VisitorAction :=
  match option_map getNamedType (getType typeInfo) with
  | Some type =>
      if includes typeDenyList type then (true, BREAK) else (hasType, NoAction)
  | None => (hasType, NoAction)
  end.

Definition denyType (options : UseInngestDataOptions) : bool :=
  let typeInfo := newTypeInfo in
  let hasType := false in
  let typeDenyList :=
    match denylist options with
    | Some d => match Denylist.types d with Some l => l | None => [] end
    | None => []
    end in
  visit (schema (args (params options))) (denyType_Field typeDenyList)
        (document (args (params options))) typeInfo hasType.

Definition denySchemaCoordinate_Field (schemaCoordinateDenyList : list string)
    (typeInfo : TypeInfo) (fieldName : string) (hasSchemaCoordinate : bool)
  : bool * VisitorAction :=
  match getParentType typeInfo with
  | Some parentType =>
      let schemaCoordinate := parentType ++ "." ++ fieldName in
      if includes schemaCoordinateDenyList schemaCoordinate
      then (true, BREAK)
      else (hasSchemaCoordinate, NoAction)
  | None => (hasSchemaCoordinate, NoAction)
  end.

Definition denySchemaCoordinate (options : UseInngestDataOptions) : bool :=
  let hasSchemaCoordinate := false in
  let typeInfo := newTypeInfo in
  let schemaCoordinateDenyList :=
    match denylist options with
    | Some d => match Denylist.schemaCoordinates d with Some l => l | None => [] end
    | None => []
    end in
  visit (schema (args (params options))) (denySchemaCoordinate_Field schemaCoordinateDenyList)
        (document (args (params options))) typeInfo hasSchemaCoordinate.

(** ** should-send-event.ts *)

(** Modelled from the spec: [allowOperation] is imported from [./tools], which
    is not among the sources. Rule 1 of the cascade is the allow-list check on
    the operation's kind, which schema-helpers.ts has as [sendOperation]. *)
Definition allowOperation (options : UseInngestDataOptions) : M bool :=
  sendOperation options.

Definition hasErrors (options : UseInngestDataOptions) : bool :=
  match result options with
  | Some r =>
      match errors r with
      | Some l => Nat.ltb 0 (length l)
      | None => false
      end
  | None => false
  end.

(** The function is async: [Returns] is the value its promise is fulfilled
    with, [Throws] the error it is rejected with. The six signals are computed
    first, in the order of the source, then the rules are gone through. *)
Definition shouldSendEvent (options : UseInngestDataOptions) : M bool :=
  (allowedOperation <- allowOperation options ;;
   isAnonymous <- lift (isAnonymousOperation (params options)) ;;
   let isIntrospection := isIntrospectionQuery (params options) in
   let hasErrors := hasErrors options in
   let shouldDenyType := denyType options in
   let shouldDenySchemaCoordinate := denySchemaCoordinate options in
   if negb allowedOperation
   then warn ("Blocking event " ++ eventName options
              ++ " because it is not an configured operation.") ;;;
        ret false
   else if shouldDenyType
   then warn ("Blocking event " ++ eventName options
              ++ " because it is present in the denylist of types.") ;;;
        ret false
   else if shouldDenySchemaCoordinate
   then warn ("Blocking event " ++ eventName options
              ++ " because it is present in the denylist of schema coordinates.") ;;;
        ret false
   else if isAnonymous && truthyFlag (sendAnonymousOperations options)
   then warn ("Sending event " ++ eventName options
              ++ " because anonymous operations are configured.") ;;;
        ret true
   else if isIntrospection && truthyFlag (sendIntrospection options)
   then warn ("Sending event " ++ eventName options
              ++ " because introspection queries are configured.") ;;;
        ret true
   else if hasErrors && truthyFlag (sendErrors options)
   then warn ("Sending event " ++ eventName options
              ++ " because sending errors is configured.") ;;;
        ret true
   else
     let shouldSend := negb isIntrospection && negb hasErrors in
     (if shouldSend
      then warn ("Sending event " ++ eventName options
                 ++ " because it is an introspection " ++ boolToString isIntrospection
                 ++ " or error " ++ boolToString hasErrors)
      else warn ("Blocking event " ++ eventName options
                 ++ " because it is not an introspection " ++ boolToString isIntrospection
                 ++ " or error " ++ boolToString hasErrors)) ;;;
     ret shouldSend)%js.

(** The value a call hands back, whatever it logged. *)
Definition valueOf {A} (m : M A) (log : Logger) : Outcome A := fst (m log).


(** ** Pure readings of the policy signals *)

Definition hasOperationDefinition (document : DocumentNode) : bool :=
  existsb isOperationDefinition (definitions document).

(** The allow-list decision, as a pure function of the input. *)
Definition operationAllowed (options : UseInngestDataOptions) : bool :=
  let operation := getOperation (params options) in
  negb (String.eqb operation "unknown")
  && includes (match sendOperations options with Some l => l | None => [] end) operation.

(** The cascade of [shouldSendEvent], as a decision over its signals. *)
Definition cascade (allowedOperation shouldDenyType shouldDenySchemaCoordinate
                    isAnonymous isIntrospection hasErrors : bool)
                   (sendAnonymous sendIntro sendErrs : bool) : bool :=
  if negb allowedOperation then false
  else if shouldDenyType then false
  else if shouldDenySchemaCoordinate then false
  else if isAnonymous && sendAnonymous then true
  else if isIntrospection && sendIntro then true
  else if hasErrors && sendErrs then true
  else negb isIntrospection && negb hasErrors.

(** The operation name resolves without a throw: a non-empty name was
    supplied, or the document has an operation definition. *)
Definition nameResolves (params : OnExecuteEventPayload) : bool :=
  truthyString (operationName (args params))
  || hasOperationDefinition (document (args params)).

(** ** Fixtures: the schema and the documents of the plugin's tests *)

Definition testSchema : GraphQLSchema :=
  {| queryType := Some "Query";
     mutationType := None;
     subscriptionType := None;
     typeMap :=
       [ ("Post", objectType [ ("id", nn "ID"); ("title", nn "String");
                               ("comments", nnList "Comment") ]);
         ("Comment", objectType [ ("id", nn "ID"); ("body", nn "String") ]);
         ("User", objectType [ ("id", nn "ID"); ("name", nn "String");
                               ("email", nn "String") ]);
         ("Query", objectType [ ("test", nn "String"); ("post", nn "Post");
                                ("posts", nnList "Post") ]) ] |}.

Definition executeParams (defs : list DefinitionNode) (name : option string)
  : OnExecuteEventPayload :=
  {| args := {| schema := testSchema; document := {| definitions := defs |};
                operationName := name; variableValues := None |} |}.

(** [query FindPosts { posts { id } }] *)
Definition findPosts : list DefinitionNode :=
  [ OperationDefinition QUERY (Some "FindPosts")
      [ Field None "posts" [ Field None "id" [] ] ] ].

(** [query { test }] *)
Definition anonymousTest : list DefinitionNode :=
  [ OperationDefinition QUERY None [ Field None "test" [] ] ].

(** [query { post { id title } }] *)
Definition anonymousPost : list DefinitionNode :=
  [ OperationDefinition QUERY None
      [ Field None "post" [ Field None "id" []; Field None "title" [] ] ] ].

(** [query { __schema { types { name } } posts { id } }] *)
Definition introspectionFirst : list DefinitionNode :=
  [ OperationDefinition QUERY None
      [ Field None "__schema" [ Field None "types" [ Field None "name" [] ] ];
        Field None "posts" [ Field None "id" [] ] ] ].

(** [fragment PostId on Query { post { id } }]: no operation at all. *)
Definition fragmentOnly : list DefinitionNode :=
  [ FragmentDefinition "PostId" "Query" [ Field None "post" [ Field None "id" [] ] ] ].

(** [query A { test } query B { test }] *)
Definition twoOperations : list DefinitionNode :=
  [ OperationDefinition QUERY (Some "A") [ Field None "test" [] ];
    OperationDefinition QUERY (Some "B") [ Field None "test" [] ] ].

Definition denyTypes (l : list string) : option Denylist.t :=
  Some {| Denylist.types := Some l; Denylist.schemaCoordinates := None |}.

Definition denyCoordinates (l : list string) : option Denylist.t :=
  Some {| Denylist.types := None; Denylist.schemaCoordinates := Some l |}.

Definition oneError : option ExecutionResult :=
  Some {| data := None; errors := Some [JsObject [("message", JsString "boom")]] |}.

(** Queries allowed, every send flag given explicitly. *)
Definition queriesAllowed (defs : list DefinitionNode) (name : option string)
    (result : option ExecutionResult) (deny : option Denylist.t)
    (anonymous introspection errs : bool) : UseInngestDataOptions :=
  {| params := executeParams defs name;
     result := result;
     eventName := "graphql-test/event";
     sendOperations := Some ["query"];
     sendErrors := Some errs;
     sendIntrospection := Some introspection;
     sendAnonymousOperations := Some anonymous;
     denylist := deny |}.

(** A configuration that leaves [sendOperations] out. *)
Definition noAllowList (defs : list DefinitionNode) : UseInngestDataOptions :=
  {| params := executeParams defs None;
     result := None;
     eventName := "graphql-test/event";
     sendOperations := None;
     sendErrors := None;
     sendIntrospection := None;
     sendAnonymousOperations := None;
     denylist := None |}.

(** ** The walkers' traversal contract, in the spec's words

    Depth-first over the document's selection structure, the type information
    resolved per visited field from the schema: each field comes with its name,
    its parent type and its declared output type. *)

Record FieldVisit := {
  fieldName : string;
  parentType : option string;
  fieldType : option GraphQLType
}.

Definition compositeOrUndefined (schema : GraphQLSchema) (t : option GraphQLType)
  : option string :=
  match option_map getNamedType t with
  | Some n => if isCompositeType schema n then Some n else None
  | None => None
  end.

(** [type] is the type the enclosing node resolved to, [parent] the composite
    type whose selection set the node sits in. *)
Fixpoint fieldsOfSelection (schema : GraphQLSchema) (type : option GraphQLType)
    (parent : option string) (sel : SelectionNode) {struct sel} : list FieldVisit :=
  let fieldsOfAll := fun type parent =>
    fix fieldsOfAll (sels : list SelectionNode) : list FieldVisit :=
      match sels with
      | [] => []
      | sel :: rest => (fieldsOfSelection schema type parent sel ++ fieldsOfAll rest)%list
      end in
  match sel with
  | Field _ name sels =>
      let declared :=
        outputOrUndefined schema
          (match parent with
           | Some p => getFieldDef schema p name
           | None => None
           end) in
      {| fieldName := name; parentType := parent; fieldType := declared |}
      :: fieldsOfAll declared (compositeOrUndefined schema declared) sels
  | FragmentSpread _ => []
  | InlineFragment typeCondition sels =>
      let narrowed :=
        outputOrUndefined schema
          (match typeCondition with
           | Some condition => Some (NamedType condition)
           | None => option_map (fun t => NamedType (getNamedType t)) type
           end) in
      fieldsOfAll narrowed (compositeOrUndefined schema narrowed) sels
  end.

Definition fieldsOfSelections (schema : GraphQLSchema) (type : option GraphQLType)
    (parent : option string) : list SelectionNode -> list FieldVisit :=
  fix fieldsOfAll (sels : list SelectionNode) : list FieldVisit :=
    match sels with
    | [] => []
    | sel :: rest => (fieldsOfSelection schema type parent sel ++ fieldsOfAll rest)%list
    end.

Definition fieldsOfSelectionSet (schema : GraphQLSchema) (type : option GraphQLType)
    (sels : list SelectionNode) : list FieldVisit :=
  fieldsOfSelections schema type (compositeOrUndefined schema type) sels.

Definition fieldsOfDefinition (schema : GraphQLSchema) (def : DefinitionNode)
  : list FieldVisit :=
  match def with
  | OperationDefinition operation _ sels =>
      fieldsOfSelectionSet schema
        (match getRootType schema operation with
         | Some rootType =>
             if isObjectType schema rootType then Some (NamedType rootType) else None
         | None => None
         end) sels
  | FragmentDefinition _ typeCondition sels =>
      fieldsOfSelectionSet schema
        (outputOrUndefined schema (Some (NamedType typeCondition))) sels
  | TypeSystemDefinition => []
  end.

Definition fieldsOfDocument (schema : GraphQLSchema) (document : DocumentNode)
  : list FieldVisit :=
  flat_map (fieldsOfDefinition schema) (definitions document).

(** A callback run over a list of fields until it breaks. *)
Fixpoint runUntilBreak {S : Type} (callback : FieldVisit -> S -> S * VisitorAction)
    (visits : list FieldVisit) (s : S) : S * bool :=
  match visits with
  | [] => (s, false)
  | v :: rest =>
      let (s', action) := callback v s in
      match action with
      | BREAK => (s', true)
      | NoAction => runUntilBreak callback rest s'
      end
  end.

(** The elements of a list up to and including the first that satisfies [p]. *)
Fixpoint throughFirst {A : Type} (p : A -> bool) (l : list A) : list A :=
  match l with
  | [] => []
  | x :: rest => if p x then [x] else x :: throughFirst p rest
  end.

(** The field a callback is looking at, read off the shared [typeInfo]. *)
Definition visiting (typeInfo : TypeInfo) (name : string) : FieldVisit :=
  {| fieldName := name;
     parentType := getParentType typeInfo;
     fieldType := getType typeInfo |}.

(** A callback that also keeps the list of the fields it was called on. *)
Definition recording {S : Type} (onField : TypeInfo -> string -> S -> S * VisitorAction)
    (typeInfo : TypeInfo) (name : string) (s : S * list FieldVisit)
  : (S * list FieldVisit) * VisitorAction :=
  let (s', action) := onField typeInfo name (fst s) in
  ((s', (snd s ++ [visiting typeInfo name])%list), action).

(** The fields on which the [Field] callback of each walker runs. *)
Definition isIntrospectionQuery_calls (params : OnExecuteEventPayload) : list FieldVisit :=
  snd (visit (schema (args params)) (recording isIntrospectionQuery_Field)
             (document (args params)) newTypeInfo (false, [])).

Definition typeDenyListOf (options : UseInngestDataOptions) : list string :=
  match denylist options with
  | Some d => match Denylist.types d with Some l => l | None => [] end
  | None => []
  end.

Definition schemaCoordinateDenyListOf (options : UseInngestDataOptions) : list string :=
  match denylist options with
  | Some d => match Denylist.schemaCoordinates d with Some l => l | None => [] end
  | None => []
  end.

Definition denySchemaCoordinate_calls (options : UseInngestDataOptions) : list FieldVisit :=
  snd (visit (schema (args (params options)))
             (recording (denySchemaCoordinate_Field (schemaCoordinateDenyListOf options)))
             (document (args (params options))) newTypeInfo (false, [])).

(** The field's resolved named output type is an introspection type. *)
Definition resolvesToIntrospectionType (v : FieldVisit) : bool :=
  match fieldType v with
  | Some t => isIntrospectionType (getNamedType t)
  | None => false
  end.

(** The field has a parent type and its coordinate is on the list. *)
Definition onDeniedCoordinate (denyCoordinates : list string) (v : FieldVisit) : bool :=
  match parentType v with
  | Some p => includes denyCoordinates (p ++ "." ++ fieldName v)
  | None => false
  end.

(** A callback that raises its flag and breaks on the first field with [p]. *)
Definition flagWhen (p : FieldVisit -> bool) (v : FieldVisit) (flag : bool)
  : bool * VisitorAction :=
  if p v then (true, BREAK) else (flag, NoAction).

(** [recording], for a callback over fields. *)
Definition recordingOver {S : Type} (callback : FieldVisit -> S -> S * VisitorAction)
    (v : FieldVisit) (s : S * list FieldVisit) : (S * list FieldVisit) * VisitorAction :=
  let (s', action) := callback v (fst s) in
  ((s', (snd s ++ [v])%list), action).

(** ** visitResult of @graphql-tools/utils

    The walk of a result in lock-step with the schema, for requests without
    directives and without an error visitor. The visitor map is asked for
    [resultVisitorMap[typename][fieldName]]; the visitors met here hand their
    argument back, so the walk threads only the variables they close over. *)

(** A field node: alias, name, selection set. *)
Definition FieldNode : Type := option string * string * list SelectionNode.

Definition responseKeyOf (alias : option string) (name : string) : string :=
  match alias with
  | Some a => a
  | None => name
  end.

(** [Map<string, Array<FieldNode>>], in insertion order. *)
Definition FieldMap : Type := list (string * list FieldNode).

Fixpoint addField (m : FieldMap) (key : string) (node : FieldNode) : FieldMap :=
  match m with
  | [] => [(key, [node])]
  | (k, nodes) :: rest =>
      if String.eqb k key then (k, (nodes ++ [node])%list) :: rest
      else (k, nodes) :: addField rest key node
  end.

Record Collected := {
  collectedFields : FieldMap;
  visitedFragmentNames : list string
}.

(** The fragments of the document by name, a later definition first. *)
Definition fragmentsOf (document : DocumentNode)
  : list (string * (string * list SelectionNode)) :=
  fold_left (fun acc def =>
               match def with
               | FragmentDefinition name typeCondition sels =>
                   (name, (typeCondition, sels)) :: acc
               | _ => acc
               end) (definitions document) [].

Definition doesFragmentConditionMatch (schema : GraphQLSchema)
    (typeCondition : option string) (type : string) : bool :=
  match typeCondition with
  | None => true
  | Some condition =>
      if String.eqb condition type then true
      else if isAbstractType schema condition
           then match lookupType schema condition with
                | Some t => includes (possibleTypes t) type
                | None => false
                end
           else false
  end.

Section CollectFields.
Variable schema : GraphQLSchema.
Variable fragments : list (string * (string * list SelectionNode)).
Variable runtimeType : string.
(** The call of collectFields on the selection set of a spread fragment. *)
Variable collectFragment : list SelectionNode -> Collected -> Collected.

Fixpoint collectSelection (sel : SelectionNode) (acc : Collected) {struct sel}
  : Collected :=
  match sel with
  | Field alias name sels =>
      {| collectedFields :=
           addField (collectedFields acc) (responseKeyOf alias name) (alias, name, sels);
         visitedFragmentNames := visitedFragmentNames acc |}
  | InlineFragment typeCondition sels =>
      if doesFragmentConditionMatch schema typeCondition runtimeType
      then (fix collectAll (sels : list SelectionNode) (acc : Collected) : Collected :=
              match sels with
              | [] => acc
              | sel :: rest => collectAll rest (collectSelection sel acc)
              end) sels acc
      else acc
  | FragmentSpread fragName =>
      if includes (visitedFragmentNames acc) fragName then acc
      else
        let acc' := {| collectedFields := collectedFields acc;
                       visitedFragmentNames := fragName :: visitedFragmentNames acc |} in
        match assoc fragments fragName with
        | Some (typeCondition, sels) =>
            if doesFragmentConditionMatch schema (Some typeCondition) runtimeType
            then collectFragment sels acc'
            else acc'
        | None => acc'
        end
  end.

Definition collectSelections (sels : list SelectionNode) (acc : Collected) : Collected :=
  fold_left (fun acc sel => collectSelection sel acc) sels acc.
End CollectFields.

(** [depth] bounds the nesting of fragment spreads that are followed; no name
    is followed twice, so the number of fragments is enough. *)
Fixpoint collectFieldsImpl (depth : nat) (schema : GraphQLSchema)
    (fragments : list (string * (string * list SelectionNode))) (runtimeType : string)
    {struct depth} : list SelectionNode -> Collected -> Collected :=
  collectSelections schema fragments runtimeType
    (match depth with
     | O => fun _ acc => acc
     | Datatypes.S depth' => collectFieldsImpl depth' schema fragments runtimeType
     end).

Definition collectFields (schema : GraphQLSchema)
    (fragments : list (string * (string * list SelectionNode))) (runtimeType : string)
  : list SelectionNode -> Collected -> Collected :=
  collectFieldsImpl (length fragments) schema fragments runtimeType.

Definition collectSubFields (schema : GraphQLSchema)
    (fragments : list (string * (string * list SelectionNode))) (type : string)
    (fieldNodes : list FieldNode) : FieldMap :=
  collectedFields
    (fold_left (fun acc (node : FieldNode) =>
                  collectFields schema fragments type (snd node) acc)
               fieldNodes
               {| collectedFields := []; visitedFragmentNames := [] |}).

Section VisitResult.
Variable S : Type.
Variable schema : GraphQLSchema.
Variable fragments : list (string * (string * list SelectionNode)).
(** [resultVisitorMap[typename][fieldName]], when it is a function. *)
Variable resultVisitorMap : string -> string -> option (JsValue -> S -> S).

(** The walk below a value, waiting for its type and its field nodes. *)
Definition Walk : Type := option GraphQLType -> list FieldNode -> S -> Outcome S.

Definition fieldTypeOf (type : string) (fieldName : string) : option GraphQLType :=
  match option_map fields (lookupType schema type) with
  | Some fs =>
      match assoc fs fieldName with
      | Some t => Some t
      | None =>
          if String.eqb fieldName "__typename" then Some (nn "String")
          else if String.eqb fieldName "__schema" then Some (nn "__Schema")
          else if String.eqb fieldName "__type" then Some (NamedType "__Type")
          else None
      end
  | None => None
  end.

(** [updateObject]: the field visitor, when there is one, sees the item. *)
Definition updateObject (type fieldName : string) (newItem : JsValue) (s : S) : S :=
  match resultVisitorMap type fieldName with
  | Some fieldVisitor => fieldVisitor newItem s
  | None => s
  end.

(** [props] are the properties of the object and [below] the walks below
    them. *)
Definition visitObjectValue (props : list (string * JsValue))
    (below : list (string * Walk)) (type : string) (fieldNodeMap : FieldMap) (s : S)
  : Outcome S :=
  bindO
    (fold_left
       (fun (acc : Outcome S) (entry : string * list FieldNode) =>
          bindO acc (fun s =>
            let (responseKey, subFieldNodes) := entry in
            match subFieldNodes with
            | [] => Returns s
            | (_, fieldName, _) :: _ =>
                let fieldType := fieldTypeOf type fieldName in
                bindO (match assoc below responseKey with
                       | Some walk => walk fieldType subFieldNodes s
                       | None => Returns s
                       end)
                      (fun s' =>
                         Returns (updateObject type fieldName
                                               (getProp props responseKey) s'))
            end))
       fieldNodeMap (Returns s))
    (fun s' =>
       match getProp props "__typename" with
       | JsUndefined | JsNull => Returns s'
       | oldTypename => Returns (updateObject type "__typename" oldTypename s')
       end).

Definition visitComposite (props : list (string * JsValue))
    (below : list (string * Walk)) (type : string) (fieldNodes : list FieldNode) (s : S)
  : Outcome S :=
  if isAbstractType schema type
  then match getProp props "__typename" with
       | JsString finalType =>
           match lookupType schema finalType with
           | Some _ =>
               visitObjectValue props below finalType
                 (collectSubFields schema fragments finalType fieldNodes) s
           | None => Throws (TypeError "Invalid value used as weak map key")
           end
       | _ => Throws (TypeError "Invalid value used as weak map key")
       end
  else visitObjectValue props below type
         (collectSubFields schema fragments type fieldNodes) s.

(** The dispatch of visitFieldValue on the return type, for a value that is
    neither null nor undefined; [asList] walks the value as a list when it
    is an array. *)
Definition visitByType (asList : option Walk) (props : list (string * JsValue))
    (below : list (string * Walk)) : Walk :=
  fun returnType fieldNodes s =>
    match returnType with
    | None => Throws (TypeError "Cannot read properties of undefined (reading 'name')")
    | Some returnType =>
        match getNullableType returnType with
        | ListType ofType =>
            match asList with
            | Some walk => walk (Some ofType) fieldNodes s
            | None => Throws (TypeError "list.map is not a function")
            end
        | nullableType =>
            let name := getNamedType nullableType in
            if isAbstractType schema name || isObjectType schema name
            then visitComposite props below name fieldNodes s
            else Returns s
        end
    end.

Fixpoint visitFieldValue (value : JsValue) {struct value} : Walk :=
  match value with
  | JsUndefined | JsNull => fun _ _ s => Returns s
  | JsArray items =>
      visitByType
        (Some (fun ofType fieldNodes =>
                 (fix visitListValue (items : list JsValue) (s : S) : Outcome S :=
                    match items with
                    | [] => Returns s
                    | listMember :: rest =>
                        bindO (visitFieldValue listMember ofType fieldNodes s)
                              (visitListValue rest)
                    end) items))
        [] []
  | JsObject props =>
      visitByType None props
        ((fix walksBelow (props : list (string * JsValue)) : list (string * Walk) :=
            match props with
            | [] => []
            | (key, v) :: rest => (key, visitFieldValue v) :: walksBelow rest
            end) props)
  | JsBool _ | JsNumber _ | JsString _ => visitByType None [] []
  end.

(** [visitRoot]: the data against the root type and the operation's
    selection set. *)
Definition visitRoot (root : JsValue) (operation : OperationDefinitionNode) (s : S)
  : Outcome S :=
  let '(operationType, name, sels) := operation in
  match getRootType schema operationType with
  | Some rootType =>
      visitFieldValue root (Some (NamedType rootType)) [(None, "", sels)] s
  | None => Throws (TypeError "Cannot read properties of undefined (reading 'getFields')")
  end.
End VisitResult.

(** [`Cannot infer operation ${operationName || ''}`]. *)
Definition cannotInferOperation (operationName : option string) : JsError :=
  Error ("Cannot infer operation "
         ++ (if truthyString operationName then optToString operationName else "")).

(** [document] and [operationName] are the two fields of the request that
    are read. The data of the result is read first, then the operation is
    looked up under the name of the request, which throws when there is none;
    the walk starts when there is data. *)
Definition visitResult {S : Type} (result : option ExecutionResult)
    (document : DocumentNode) (operationName : option string) (schema : GraphQLSchema)
    (resultVisitorMap : string -> string -> option (JsValue -> S -> S)) (s : S)
  : Outcome S :=
  match result with
  | None => Throws (TypeError "Cannot read properties of undefined (reading 'data')")
  | Some result =>
      match getOperationAST document operationName with
      | None => Throws (cannotInferOperation operationName)
      | Some operation =>
          match data result with
          | None | Some JsUndefined | Some JsNull => Returns s
          | Some data =>
              visitRoot schema (fragmentsOf document) resultVisitorMap data operation s
          end
      end
  end.

(** ** buildTypeIdentifiers *)

Module Entity.
(** [UseInngestEntityRecord]. *)
Record t := { typename : string; id : JsValue }.
End Entity.

(** [map.set(key, value)] on an insertion-ordered Map: a key already there
    keeps its place and takes the new value. *)
Fixpoint Map_set {V : Type} (m : list (string * V)) (key : string) (value : V)
  : list (string * V) :=
  match m with
  | [] => [(key, value)]
  | (k, v) :: rest =>
      if String.eqb k key then (k, value) :: rest
      else (k, v) :: Map_set rest key value
  end.

(** [set.add(x)] on an insertion-ordered Set. *)
Definition Set_add (s : list string) (x : string) : list string :=
  if includes s x then s else (s ++ [x])%list.

(** The two collections the visitor closes over. *)
Record Collections := {
  identifierSet : list (string * Entity.t);
  typeSet : list string
}.

Definition idFields : list string := ["id"].

(** The key of an entity in [identifierSet]: [`${typename}:${id}`]. *)
Definition identifierKey (typename : string) (id : JsValue) : string :=
  typename ++ ":" ++ toString id.

(** The function the inner Proxy hands out for a field among [idFields]. *)
Definition recordIdentifier (typename : string) (id : JsValue) (c : Collections)
  : Collections :=
  {| identifierSet :=
       Map_set (identifierSet c) (identifierKey typename id)
               {| Entity.typename := typename; Entity.id := id |};
     typeSet := Set_add (typeSet c) typename |}.

(** The Proxy passed as resultVisitorMap: [get] on it gives, for any typename,
    a Proxy whose [get] gives the recording function for the fields among
    [idFields] and undefined for every other name. The branch under
    [documentChanged], a constant false, is never taken and is left out; the
    [apply] trap, used for leaf values, hands the value back. *)
Definition identifierVisitorMap (typename fieldName : string)
  : option (JsValue -> Collections -> Collections) :=
  if includes idFields fieldName then Some (recordIdentifier typename) else None.

Record TypeIdentifiers := {
  types : list string;
  identifiers : list Entity.t
}.

(** Async as well. The operation name is computed while the request handed
    to visitResult is built, before the walk starts. *)
Definition buildTypeIdentifiers (options : UseInngestDataOptions)
  : Outcome TypeIdentifiers :=
  let identifierSet0 : list (string * Entity.t) := [] in
  let typeSet0 : list string := [] in
  bindO (getOperationName (params options)) (fun operationName =>
  bindO (visitResult (result options)
                     (document (args (params options)))
                     operationName
                     (schema (args (params options)))
                     identifierVisitorMap
                     {| identifierSet := identifierSet0; typeSet := typeSet0 |})
        (fun c =>
           Returns {| types := typeSet c;
                      identifiers := map snd (identifierSet c) |})).

(** The pairs the recording function is called on, in the order of the walk:
    the same walk with a visitor map that only lists them. *)
Definition listingVisitorMap (typename fieldName : string)
  : option (JsValue -> list Entity.t -> list Entity.t) :=
  if includes idFields fieldName
  then Some (fun id seen =>
               (seen ++ [{| Entity.typename := typename; Entity.id := id |}])%list)
  else None.

Definition observedPairs (options : UseInngestDataOptions) : Outcome (list Entity.t) :=
  bindO (getOperationName (params options)) (fun operationName =>
  visitResult (result options)
              (document (args (params options)))
              operationName
              (schema (args (params options)))
              listingVisitorMap []).

Definition keyOf (e : Entity.t) : string :=
  identifierKey (Entity.typename e) (Entity.id e).

Definition recordEntity (c : Collections) (e : Entity.t) : Collections :=
  recordIdentifier (Entity.typename e) (Entity.id e) c.

(** The number [n], for a safe [n]. *)
Definition number (n : Z) (safe : (Z.abs n <=? MAX_SAFE_INTEGER)%Z = true) : JsValue :=
  JsNumber {| integerValue := n; isSafe := safe |}.
Arguments number n safe : clear implicits.

Definition five : JsValue := number 5 eq_refl.
Definition seven : JsValue := number 7 eq_refl.
Definition eleven : JsValue := number 11 eq_refl.

(** Fixtures: results for [query FindPosts { posts { id } }]. *)
Definition post (id : JsValue) : JsValue :=
  JsObject [("id", id); ("__typename", JsString "Post")].

Definition resultWithPosts (ids : list JsValue) : option ExecutionResult :=
  Some {| data := Some (JsObject [("posts", JsArray (map post ids))]);
          errors := Some [] |}.

Definition extractFrom (defs : list DefinitionNode) (result : option ExecutionResult)
  : UseInngestDataOptions :=
  {| params := executeParams defs None;
     result := result;
     eventName := "graphql-test/test-query.query";
     sendOperations := None;
     sendErrors := None;
     sendIntrospection := None;
     sendAnonymousOperations := None;
     denylist := None |}.

(** ** Relating two walks of one result under two visitor maps *)

Definition relatedOutcomes {S1 S2 : Type} (R : S1 -> S2 -> Prop)
    (o1 : Outcome S1) (o2 : Outcome S2) : Prop :=
  match o1, o2 with
  | Returns a, Returns b => R a b
  | Throws e1, Throws e2 => e1 = e2
  | _, _ => False
  end.

Definition relatedWalks {S1 S2 : Type} (R : S1 -> S2 -> Prop)
    (w1 : Walk S1) (w2 : Walk S2) : Prop :=
  forall returnType fieldNodes s1 s2,
    R s1 s2 -> relatedOutcomes R (w1 returnType fieldNodes s1) (w2 returnType fieldNodes s2).

Definition relatedVisitorMaps {S1 S2 : Type} (R : S1 -> S2 -> Prop)
    (m1 : string -> string -> option (JsValue -> S1 -> S1))
    (m2 : string -> string -> option (JsValue -> S2 -> S2)) : Prop :=
  forall typename fieldName,
    match m1 typename fieldName, m2 typename fieldName with
    | Some f, Some g => forall v s1 s2, R s1 s2 -> R (f v s1) (g v s2)
    | None, None => True
    | _, _ => False
    end.

Definition relatedBelow {S1 S2 : Type} (R : S1 -> S2 -> Prop)
    (b1 : list (string * Walk S1)) (b2 : list (string * Walk S2)) : Prop :=
  Forall2 (fun x y => fst x = fst y /\ relatedWalks R (snd x) (snd y)) b1 b2.

Definition noCollections : Collections := {| identifierSet := []; typeSet := [] |}.

(** The collections hold what recording the listed pairs in turn gives. *)
Definition collectionsOf (c : Collections) (seen : list Entity.t) : Prop :=
  c = fold_left recordEntity seen noCollections.

(** A visit from the stacks [ti] did what the run [r'] over the listed fields
    did, and gave the stacks back unless it broke off. *)
Definition agrees {S : Type} (r : TypeInfo * S * bool) (ti : TypeInfo) (r' : S * bool)
  : Prop :=
  snd (fst r) = fst r' /\ snd r = snd r' /\ (snd r = false -> fst (fst r) = ti).

Definition selectionAgrees {S : Type} (schema : GraphQLSchema)
    (onField : TypeInfo -> string -> S -> S * VisitorAction)
    (callback : FieldVisit -> S -> S * VisitorAction) (sel : SelectionNode) : Prop :=
  forall ti s,
    agrees (visitSelection schema onField sel ti s) ti
           (runUntilBreak callback
              (fieldsOfSelection schema (getType ti) (getParentType ti) sel) s).

Definition postEntity (id : JsValue) : Entity.t :=
  {| Entity.typename := "Post"; Entity.id := id |}.

(** The number of defined fragment names that no spread has yet visited: what
    is left to follow. *)
Definition pendingFragments (fragments : list (string * (string * list SelectionNode)))
    (acc : Collected) : nat :=
  length (filter (fun name => negb (includes (visitedFragmentNames acc) name))
                 (nodup string_dec (map fst fragments))).

(** A call on selection sets that only adds to the visited fragment names. *)
Definition growsVisited (collect : list SelectionNode -> Collected -> Collected) : Prop :=
  forall sels acc, incl (visitedFragmentNames acc) (visitedFragmentNames (collect sels acc)).

(** A name without a colon, as every GraphQL name is. *)
Fixpoint colonFree (s : string) : bool :=
  match s with
  | EmptyString => true
  | String c rest => negb (Ascii.eqb c ":") && colonFree rest
  end.

(** Two ids of one sort: both strings, or both numbers. *)
Definition sameSort (v v' : JsValue) : bool :=
  match v, v' with
  | JsString _, JsString _ | JsNumber _, JsNumber _ => true
  | _, _ => false
  end.

(** ** Variations of an input *)

(** The same input under other send flags. *)
Definition withSendFlags (options : UseInngestDataOptions)
    (anonymous introspection errs : option bool) : UseInngestDataOptions :=
  {| params := params options;
     result := result options;
     eventName := eventName options;
     sendOperations := sendOperations options;
     sendErrors := errs;
     sendIntrospection := introspection;
     sendAnonymousOperations := anonymous;
     denylist := denylist options |}.

(** The same input under another denylist. *)
Definition withDenylist (options : UseInngestDataOptions) (deny : option Denylist.t)
  : UseInngestDataOptions :=
  {| params := params options;
     result := result options;
     eventName := eventName options;
     sendOperations := sendOperations options;
     sendErrors := sendErrors options;
     sendIntrospection := sendIntrospection options;
     sendAnonymousOperations := sendAnonymousOperations options;
     denylist := deny |}.

(** The same execution over a document with other definitions. *)
Definition paramsOver (params : OnExecuteEventPayload) (defs : list DefinitionNode)
  : OnExecuteEventPayload :=
  {| args := {| schema := schema (args params);
                document := {| definitions := defs |};
                operationName := operationName (args params);
                variableValues := variableValues (args params) |} |}.

Definition withDefinitions (options : UseInngestDataOptions) (defs : list DefinitionNode)
  : UseInngestDataOptions :=
  {| params := paramsOver (params options) defs;
     result := result options;
     eventName := eventName options;
     sendOperations := sendOperations options;
     sendErrors := sendErrors options;
     sendIntrospection := sendIntrospection options;
     sendAnonymousOperations := sendAnonymousOperations options;
     denylist := denylist options |}.

(** [options.sendOperations], an absent list read as the empty one, which is
    what [new Set(undefined)] holds. *)
Definition sendOperationsOf (options : UseInngestDataOptions) : list string :=
  match sendOperations options with
  | Some l => l
  | None => []
  end.

(** The words a rationale line opens with, by the decision taken. *)
Definition rationaleOpening (send : bool) (eventName : string) : string :=
  (if send then "Sending event " else "Blocking event ") ++ eventName.

(** The fields on which the callback of denyType runs. *)
Definition denyType_calls (options : UseInngestDataOptions) : list FieldVisit :=
  snd (visit (schema (args (params options)))
             (recording (denyType_Field (typeDenyListOf options)))
             (document (args (params options))) newTypeInfo (false, [])).

(** The field's resolved named output type is on the list. *)
Definition resolvesToDeniedType (denyTypes : list string) (v : FieldVisit) : bool :=
  match fieldType v with
  | Some t => includes denyTypes (getNamedType t)
  | None => false
  end.

(** A string without a dot. *)
Fixpoint dotFree (s : string) : bool :=
  match s with
  | EmptyString => true
  | String c rest => negb (Ascii.eqb c ".") && dotFree rest
  end.

(** The elements of a list, each at the place of its first occurrence. *)
Definition firstOccurrences (l : list string) : list string :=
  rev (nodup string_dec (rev l)).

(** The last pair of a list that has the key [key]. *)
Definition lastWithKey (key : string) (seen : list Entity.t) : option Entity.t :=
  find (fun e => String.eqb (keyOf e) key) (rev seen).

(** The same input under another allow-list and another denylist. *)
Definition withLists (options : UseInngestDataOptions) (allow : option (list string))
    (deny : option Denylist.t) : UseInngestDataOptions :=
  {| params := params options;
     result := result options;
     eventName := eventName options;
     sendOperations := allow;
     sendErrors := sendErrors options;
     sendIntrospection := sendIntrospection options;
     sendAnonymousOperations := sendAnonymousOperations options;
     denylist := deny |}.

(** A selection with every alias taken off. *)
Fixpoint withoutAlias (sel : SelectionNode) : SelectionNode :=
  match sel with
  | Field _ name sels => Field None name (map withoutAlias sels)
  | FragmentSpread name => FragmentSpread name
  | InlineFragment typeCondition sels => InlineFragment typeCondition (map withoutAlias sels)
  end.

Definition definitionWithoutAliases (def : DefinitionNode) : DefinitionNode :=
  match def with
  | OperationDefinition operation name sels =>
      OperationDefinition operation name (map withoutAlias sels)
  | FragmentDefinition name typeCondition sels =>
      FragmentDefinition name typeCondition (map withoutAlias sels)
  | TypeSystemDefinition => TypeSystemDefinition
  end.

(** [query A { posts { id } } query B { test }] *)
Definition postsThenTest : list DefinitionNode :=
  [ OperationDefinition QUERY (Some "A") [ Field None "posts" [ Field None "id" [] ] ];
    OperationDefinition QUERY (Some "B") [ Field None "test" [] ] ].


(** * Properties *)

(** ** Operation resolution *)


Lemma find_isOperationDefinition (defs : list DefinitionNode) :
  existsb isOperationDefinition defs = true ->
  exists d, find isOperationDefinition defs = Some d.
Proof.
  induction defs as [|d defs IH]; simpl; [discriminate|].
  destruct (isOperationDefinition d); [eauto | exact IH].
Qed.

Lemma getOperationAST_loop_found defs wanted acc op :
  getOperationAST_loop defs wanted acc = Some op ->
  acc <> None \/ existsb isOperationDefinition defs = true.
Proof.
  revert acc.
  induction defs as [|d defs IH]; intros acc H; simpl in *.
  - left. congruence.
  - destruct d as [o name sels| |]; simpl; auto.
Qed.

Lemma getOperationAST_hasOperationDefinition document name op :
  getOperationAST document name = Some op ->
  hasOperationDefinition document = true.
Proof.
  intros H. apply getOperationAST_loop_found in H.
  destruct H as [H|H]; [contradiction H; reflexivity | exact H].
Qed.

Lemma getOperationName_returns params :
  hasOperationDefinition (document (args params)) = true ->
  exists name, getOperationName params = Returns name.
Proof.
  intros H. unfold getOperationName.
  destruct (truthyString (operationName (args params))); [eauto|].
  destruct (find_isOperationDefinition _ H) as [d ->].
  destruct (truthyString (definitionName d)); eauto.
Qed.

Lemma operationTypeString_known o : String.eqb (operationTypeString o) "unknown" = false.
Proof. destruct o; reflexivity. Qed.


Lemma getOperation_known_hasOperationDefinition params :
  String.eqb (getOperation params) "unknown" = false ->
  hasOperationDefinition (document (args params)) = true.
Proof.
  unfold getOperation.
  destruct (getOperationAST _ _) as [[[o n] s]|] eqn:E; [|discriminate].
  intros _. eapply getOperationAST_hasOperationDefinition; eauto.
Qed.

(** [sendOperation] never throws, and its value is the allow-list decision. *)
Lemma sendOperation_value options log :
  valueOf (sendOperation options) log = Returns (operationAllowed options).
Proof.
  unfold valueOf, sendOperation, operationAllowed, bind, warn, ret, lift,
    booleanIsUndefined.
  cbn beta iota.
  destruct (String.eqb (getOperation (params options)) "unknown") eqn:E; [reflexivity|].
  cbn [negb andb].
  destruct (includes _ _); cbn [negb]; [reflexivity|].
  destruct (getOperationName_returns (params options)
              (getOperation_known_hasOperationDefinition _ E)) as [name ->].
  reflexivity.
Qed.

Lemma operationAllowed_hasOperationDefinition options :
  operationAllowed options = true ->
  hasOperationDefinition (document (args (params options))) = true.
Proof.
  unfold operationAllowed. intros H.
  apply andb_prop in H. destruct H as [H _].
  apply getOperation_known_hasOperationDefinition.
  destruct (String.eqb _ _); [discriminate | reflexivity].
Qed.

(** ** The cascade of shouldSendEvent *)

(** Once the operation name resolves, [shouldSendEvent] returns what the
    cascade decides. *)
Lemma shouldSendEvent_value options log isAnonymous :
  isAnonymousOperation (params options) = Returns isAnonymous ->
  valueOf (shouldSendEvent options) log =
  Returns (cascade (operationAllowed options) (denyType options)
                   (denySchemaCoordinate options) isAnonymous
                   (isIntrospectionQuery (params options)) (hasErrors options)
                   (truthyFlag (sendAnonymousOperations options))
                   (truthyFlag (sendIntrospection options))
                   (truthyFlag (sendErrors options))).
Proof.
  intros Hanon.
  pose proof (sendOperation_value options log) as Hallow.
  unfold valueOf in *. unfold shouldSendEvent, allowOperation, bind at 1.
  destruct (sendOperation options log) as [[allowed|e] log1]; simpl in Hallow;
    [|discriminate].
  injection Hallow as ->.
  unfold bind at 1, lift. rewrite Hanon. unfold cascade.
  destruct (operationAllowed options); cbn [negb];
    [|reflexivity].
  destruct (denyType options); [reflexivity|].
  destruct (denySchemaCoordinate options); [reflexivity|].
  destruct (isAnonymous && _); [reflexivity|].
  destruct (isIntrospectionQuery (params options) && _); [reflexivity|].
  destruct (hasErrors options && _); [reflexivity|].
  destruct (negb (isIntrospectionQuery (params options)) && negb (hasErrors options));
    reflexivity.
Qed.

(** When the operation name does not resolve, the throw of
    [isAnonymousOperation] is the outcome of [shouldSendEvent]. *)
Lemma shouldSendEvent_throws options log e :
  isAnonymousOperation (params options) = Throws e ->
  valueOf (shouldSendEvent options) log = Throws e.
Proof.
  intros Hanon.
  pose proof (sendOperation_value options log) as Hallow.
  unfold valueOf in *. unfold shouldSendEvent, allowOperation, bind at 1.
  destruct (sendOperation options log) as [[allowed|e'] log1]; simpl in Hallow;
    [|discriminate].
  unfold bind at 1, lift. rewrite Hanon. reflexivity.
Qed.

Lemma isAnonymousOperation_returns params :
  hasOperationDefinition (document (args params)) = true ->
  exists b, isAnonymousOperation params = Returns b.
Proof.
  intros H. unfold isAnonymousOperation.
  destruct (getOperationName_returns params H) as [name ->]. simpl. eauto.
Qed.

Lemma nameResolves_returns params :
  nameResolves params = true ->
  exists name, getOperationName params = Returns name.
Proof.
  unfold nameResolves. intros H.
  destruct (truthyString (operationName (args params))) eqn:E.
  - unfold getOperationName. rewrite E. eauto.
  - apply getOperationName_returns. exact H.
Qed.

Lemma nameResolves_anonymous params :
  nameResolves params = true ->
  exists b, isAnonymousOperation params = Returns b.
Proof.
  intros H. destruct (nameResolves_returns _ H) as [name E].
  unfold isAnonymousOperation. rewrite E. simpl. eauto.
Qed.

Lemma allowOperation_allowed options log :
  valueOf (allowOperation options) log = Returns true ->
  operationAllowed options = true.
Proof.
  unfold allowOperation. rewrite sendOperation_value. congruence.
Qed.

(** ** Rules 2, 4, 5 and 6: a denied type wins over every allow override *)

(** C1, as amended. Whenever the operation name resolves (a non-empty
    operationName is supplied or the document has an operation definition)
    and the document touches a type on the denylist, shouldSendEvent returns
    false, whatever the three send flags, the anonymity of the operation,
    the introspection signal and the errors of the result are. *)
Theorem denied_type_is_never_sent (options : UseInngestDataOptions) (log : Logger)
    (Hname : nameResolves (params options) = true)
    (Hdeny : denyType options = true) :
  valueOf (shouldSendEvent options) log = Returns false.
Proof.
  destruct (nameResolves_anonymous _ Hname) as [anon Hanon].
  rewrite (shouldSendEvent_value options log Hanon).
  unfold cascade. rewrite Hdeny.
  destruct (operationAllowed options); reflexivity.
Qed.

(** At an introspection query on a denied type, with sendIntrospection set. *)
Lemma denied_type_is_never_sent_witness :
  isIntrospectionQuery
    (params (queriesAllowed introspectionFirst None None (denyTypes ["__Schema"])
                            true true true)) = true
  /\ valueOf (shouldSendEvent
                (queriesAllowed introspectionFirst None None (denyTypes ["__Schema"])
                                true true true)) [] = Returns false.
Proof.
  split; [reflexivity|].
  apply (denied_type_is_never_sent
           (queriesAllowed introspectionFirst None None (denyTypes ["__Schema"])
                           true true true) []); reflexivity.
Defined.

(** C1, as stated, fails on a document that touches a denied type and has no
    operation definition: the name resolution throws before any rule is
    looked at, so shouldSendEvent does not return false. *)
Lemma denied_type_without_operation_throws :
  denyType (queriesAllowed fragmentOnly None None (denyTypes ["Post"]) false true false)
  = true
  /\ valueOf (shouldSendEvent
                (queriesAllowed fragmentOnly None None (denyTypes ["Post"])
                                false true false)) []
     = Throws (TypeError "Cannot read properties of undefined (reading 'name')")
  /\ valueOf (shouldSendEvent
                (queriesAllowed fragmentOnly None None (denyTypes ["Post"])
                                false true false)) []
     <> Returns false.
Proof.
  split; [reflexivity|]. split; [reflexivity|]. vm_compute. discriminate.
Qed.

(** ** Rule 7: the default *)

(** hasErrors holds exactly of the options whose result is there and whose
    errors are a list with a first element. *)
Lemma hasErrors_carries (options : UseInngestDataOptions) :
  hasErrors options = true
  <-> exists r e rest, result options = Some r /\ errors r = Some (e :: rest).
Proof.
  unfold hasErrors. split.
  - destruct (result options) as [r|]; [|discriminate].
    destruct (errors r) as [[|e rest]|] eqn:He; try discriminate.
    intros _. exists r, e, rest. split; [reflexivity | exact He].
  - intros (r & e & rest & -> & ->). reflexivity.
Qed.

(** C3. When the operation's kind is allowed, no denied type and no denied
    schema coordinate is touched, and none of the three allow overrides
    applies, shouldSendEvent returns true exactly when the operation is not
    an introspection query and the result carries no errors, and returns
    false exactly when the operation is an introspection query or the result
    carries errors; so a result with one or more errors is not sent. A result
    carries errors when it is there and its errors are a list with at least
    one element. *)
Theorem default_rule (options : UseInngestDataOptions) (log : Logger)
    (Hallowed : valueOf (allowOperation options) log = Returns true)
    (Htype : denyType options = false)
    (Hcoordinate : denySchemaCoordinate options = false)
    (Hanonymous : isAnonymousOperation (params options) = Returns true ->
                  truthyFlag (sendAnonymousOperations options) = false)
    (Hintrospection : isIntrospectionQuery (params options) = true ->
                      truthyFlag (sendIntrospection options) = false)
    (Herrors : (exists r e rest, result options = Some r /\ errors r = Some (e :: rest)) ->
               truthyFlag (sendErrors options) = false) :
  (valueOf (shouldSendEvent options) log = Returns true
   <-> isIntrospectionQuery (params options) = false
       /\ ~ (exists r e rest, result options = Some r /\ errors r = Some (e :: rest)))
  /\ (valueOf (shouldSendEvent options) log = Returns false
      <-> isIntrospectionQuery (params options) = true
          \/ (exists r e rest, result options = Some r /\ errors r = Some (e :: rest)))
  /\ ((exists r e rest, result options = Some r /\ errors r = Some (e :: rest)) ->
      valueOf (shouldSendEvent options) log = Returns false).
Proof.
  pose proof (hasErrors_carries options) as Hcarries.
  apply allowOperation_allowed in Hallowed.
  destruct (isAnonymousOperation_returns _
              (operationAllowed_hasOperationDefinition _ Hallowed)) as [anon Hanon].
  assert (Herrors' : hasErrors options = true -> truthyFlag (sendErrors options) = false).
  { intros H. apply Herrors, Hcarries, H. }
  assert (Hvalue : valueOf (shouldSendEvent options) log
                   = Returns (negb (isIntrospectionQuery (params options))
                              && negb (hasErrors options))).
  { rewrite (shouldSendEvent_value options log Hanon).
    unfold cascade. rewrite Hallowed, Htype, Hcoordinate. cbn [negb].
    destruct anon.
    - rewrite (Hanonymous Hanon). cbn [andb].
      destruct (isIntrospectionQuery (params options)).
      + rewrite (Hintrospection eq_refl). cbn [andb].
        destruct (hasErrors options); [rewrite (Herrors' eq_refl)|]; reflexivity.
      + cbn [andb].
        destruct (hasErrors options); [rewrite (Herrors' eq_refl)|]; reflexivity.
    - cbn [andb].
      destruct (isIntrospectionQuery (params options)).
      + rewrite (Hintrospection eq_refl). cbn [andb].
        destruct (hasErrors options); [rewrite (Herrors' eq_refl)|]; reflexivity.
      + cbn [andb].
        destruct (hasErrors options); [rewrite (Herrors' eq_refl)|]; reflexivity. }
  rewrite Hvalue. clear Hvalue Herrors Herrors' Hanonymous Hintrospection.
  destruct (isIntrospectionQuery (params options)), (hasErrors options) eqn:He;
    cbn [negb andb].
  - split; [|split].
    + split; [discriminate | intros [H _]; discriminate H].
    + split; [intros _; left; reflexivity | reflexivity].
    + reflexivity.
  - split; [|split].
    + split; [discriminate | intros [H _]; discriminate H].
    + split; [intros _; left; reflexivity | reflexivity].
    + reflexivity.
  - split; [|split].
    + split; [discriminate | intros [_ H]; exfalso; apply H, Hcarries; reflexivity].
    + split; [intros _; right; apply Hcarries; reflexivity | reflexivity].
    + reflexivity.
  - assert (Hnone : ~ (exists r e rest,
                          result options = Some r /\ errors r = Some (e :: rest))).
    { intros H. apply Hcarries in H. discriminate H. }
    split; [|split].
    + split; [intros _; split; [reflexivity | exact Hnone] | reflexivity].
    + split; [discriminate | intros [H | H]; [discriminate H | destruct (Hnone H)]].
    + intros H. destruct (Hnone H).
Qed.

(** A named query is sent when its result has an empty list of errors, and is
    not sent when its result has one error and sendErrors is false; an
    introspection query with sendIntrospection false is not sent. *)
Lemma default_rule_witness :
  valueOf (shouldSendEvent
             (queriesAllowed findPosts None (resultWithPosts [five]) None
                             false false false)) []
  = Returns true
  /\ valueOf (shouldSendEvent
                (queriesAllowed findPosts None oneError None false false false)) []
     = Returns false
  /\ valueOf (shouldSendEvent
                (queriesAllowed introspectionFirst None (resultWithPosts [five]) None
                                false false false)) []
     = Returns false.
Proof.
  split; [|split].
  - refine (proj2 (proj1 (default_rule
             (queriesAllowed findPosts None (resultWithPosts [five]) None
                             false false false) []
             _ _ _ _ _ _)) _);
      try reflexivity; try (intros; reflexivity).
    split; [reflexivity|].
    intros (r & e & rest & Hr & He). injection Hr as <-. discriminate He.
  - refine (proj2 (proj2 (default_rule
             (queriesAllowed findPosts None oneError None false false false) []
             _ _ _ _ _ _)) _);
      try reflexivity; try (intros; reflexivity).
    eexists _, _, _. split; reflexivity.
  - refine (proj2 (proj1 (proj2 (default_rule
             (queriesAllowed introspectionFirst None (resultWithPosts [five]) None
                             false false false) []
             _ _ _ _ _ _))) _);
      try reflexivity; try (intros; reflexivity).
    left. reflexivity.
Defined.

(** ** Anonymity is an allow override only *)

(** C10. An anonymous operation whose kind is allowed, that touches no denied
    type or schema coordinate, is not an introspection query and whose result
    carries no errors is sent, whatever sendAnonymousOperations is. *)
Theorem anonymity_alone_never_denies (options : UseInngestDataOptions) (log : Logger)
    (Hallowed : valueOf (allowOperation options) log = Returns true)
    (Htype : denyType options = false)
    (Hcoordinate : denySchemaCoordinate options = false)
    (Hanonymous : isAnonymousOperation (params options) = Returns true)
    (Hintrospection : isIntrospectionQuery (params options) = false)
    (Herrors : hasErrors options = false) :
  valueOf (shouldSendEvent options) log = Returns true.
Proof.
  apply allowOperation_allowed in Hallowed.
  rewrite (shouldSendEvent_value options log Hanonymous).
  unfold cascade.
  rewrite Hallowed, Htype, Hcoordinate, Hintrospection, Herrors.
  destruct (truthyFlag (sendAnonymousOperations options)); reflexivity.
Qed.

(** The anonymous [query { test }] with sendAnonymousOperations false. *)
Lemma anonymity_alone_never_denies_witness :
  sendAnonymousOperations
    (queriesAllowed anonymousTest None None None false false false) = Some false
  /\ valueOf (shouldSendEvent
                (queriesAllowed anonymousTest None None None false false false)) []
     = Returns true.
Proof.
  split; [reflexivity|].
  apply (anonymity_alone_never_denies
           (queriesAllowed anonymousTest None None None false false false) []);
    reflexivity.
Defined.

(** ** Rule 1 on an operation that does not resolve *)



(** ** The absent allow-list *)

Lemma sendOperation_lines options :
  snd (sendOperation options []) = []
  \/ snd (sendOperation options []) = ["Unknown operation"]
  \/ exists rest, snd (sendOperation options []) = ["Operation " ++ rest].
Proof.
  unfold sendOperation, bind, warn, ret, lift, booleanIsUndefined.
  cbn beta iota.
  destruct (String.eqb (getOperation (params options)) "unknown") eqn:E.
  - right. left. reflexivity.
  - destruct (includes _ _); cbn [negb]; [left; reflexivity|].
    destruct (getOperationName_returns (params options)
                (getOperation_known_hasOperationDefinition _ E)) as [name ->].
    right. right. eexists. cbn [snd app]. reflexivity.
Qed.

(** C5, on the code. With sendOperations left out, sendOperation returns
    false for every operation, but the warning 'No operations are allowed.'
    is never logged: the guard [!options.sendOperations === undefined]
    compares a boolean with undefined and never holds. *)
Theorem absent_allow_list_denies_without_its_warning
    (options : UseInngestDataOptions) (log : Logger)
    (Habsent : sendOperations options = None) :
  valueOf (sendOperation options) log = Returns false
  /\ ~ In "No operations are allowed." (snd (sendOperation options [])).
Proof.
  split.
  - rewrite sendOperation_value. unfold operationAllowed. rewrite Habsent.
    cbn. rewrite andb_false_r. reflexivity.
  - destruct (sendOperation_lines options) as [-> | [-> | [rest ->]]];
      cbn; intros H; repeat destruct H as [H|H]; try discriminate H; exact H.
Qed.

(** [query FindPosts { posts { id } }] under a configuration without
    sendOperations: denied, and the only line logged is the plain
    not-allowed one. *)
Lemma absent_allow_list_denies_without_its_warning_witness :
  sendOperation (noAllowList findPosts) []
  = (Returns false, ["Operation query named FindPosts is not allowed"])
  /\ valueOf (sendOperation (noAllowList findPosts)) [] = Returns false
  /\ ~ In "No operations are allowed." (snd (sendOperation (noAllowList findPosts) [])).
Proof.
  split; [reflexivity|].
  apply (absent_allow_list_denies_without_its_warning (noAllowList findPosts) []).
  reflexivity.
Defined.

(** ** Operation names *)

(** C8, as amended. In a document with an operation definition,
    getOperationName returns the supplied operationName when it is non-empty,
    otherwise the non-empty name declared on the first operation definition,
    otherwise undefined; and isAnonymousOperation returns true exactly when
    that resolution gives undefined. *)
Theorem getOperationName_resolution (params : OnExecuteEventPayload)
    (rootOperation : DefinitionNode)
    (Hroot : find isOperationDefinition (definitions (document (args params)))
             = Some rootOperation) :
  getOperationName params
  = Returns (if truthyString (operationName (args params))
             then operationName (args params)
             else if truthyString (definitionName rootOperation)
                  then definitionName rootOperation
                  else None)
  /\ (isAnonymousOperation params = Returns true
      <-> getOperationName params = Returns None)
  /\ (isAnonymousOperation params = Returns false
      <-> exists name, getOperationName params = Returns (Some name)).
Proof.
  split.
  - unfold getOperationName. rewrite Hroot.
    destruct (truthyString (operationName (args params))); [reflexivity|].
    destruct (truthyString (definitionName rootOperation)); reflexivity.
  - unfold isAnonymousOperation.
    destruct (getOperationName params) as [[name|]|e]; cbn; split.
    + split; intros H; discriminate H.
    + split; [intros _; eauto | reflexivity].
    + split; intros H; reflexivity.
    + split; [intros H; discriminate H | intros [name H]; discriminate H].
    + split; intros H; discriminate H.
    + split; [intros H; discriminate H | intros [name H]; discriminate H].
Qed.

(** The explicit name wins over the declared one; without either the
    operation is anonymous. *)
Lemma getOperationName_resolution_witness :
  getOperationName (executeParams findPosts (Some "Explicit")) = Returns (Some "Explicit")
  /\ getOperationName (executeParams findPosts None) = Returns (Some "FindPosts")
  /\ getOperationName (executeParams anonymousTest None) = Returns None
  /\ isAnonymousOperation (executeParams anonymousTest None) = Returns true.
Proof.
  split; [|split; [|split]].
  - exact (proj1 (getOperationName_resolution
                    (executeParams findPosts (Some "Explicit")) eq_refl)).
  - exact (proj1 (getOperationName_resolution (executeParams findPosts None) eq_refl)).
  - exact (proj1 (getOperationName_resolution (executeParams anonymousTest None) eq_refl)).
  - apply (proj1 (proj2 (getOperationName_resolution
                           (executeParams anonymousTest None) eq_refl))).
    reflexivity.
Defined.

(** C8, as stated, fails twice: an operationName that is given but empty is
    passed over for the declared name, and in a document without an operation
    definition the resolution throws where the claim has undefined. *)
Lemma getOperationName_literal_reading_fails :
  (operationName (args (executeParams findPosts (Some ""))) = Some ""
   /\ getOperationName (executeParams findPosts (Some "")) = Returns (Some "FindPosts")
   /\ getOperationName (executeParams findPosts (Some "")) <> Returns (Some ""))
  /\ (operationName (args (executeParams fragmentOnly None)) = None
      /\ find isOperationDefinition
              (definitions (document (args (executeParams fragmentOnly None)))) = None
      /\ getOperationName (executeParams fragmentOnly None) <> Returns None
      /\ isAnonymousOperation (executeParams fragmentOnly None) <> Returns true).
Proof.
  repeat split; try reflexivity; vm_compute; discriminate.
Qed.

(** ** visit against the traversal contract *)

Lemma SelectionNode_ind' (P : SelectionNode -> Prop) :
  (forall alias name sels, Forall P sels -> P (Field alias name sels)) ->
  (forall name, P (FragmentSpread name)) ->
  (forall typeCondition sels, Forall P sels -> P (InlineFragment typeCondition sels)) ->
  forall sel, P sel.
Proof.
  intros HField HSpread HInline.
  fix IH 1.
  intros [alias name sels | name | typeCondition sels].
  - apply HField. induction sels as [|sel sels IHsels]; constructor; [apply IH | exact IHsels].
  - apply HSpread.
  - apply HInline. induction sels as [|sel sels IHsels]; constructor; [apply IH | exact IHsels].
Qed.

Lemma leave_enter schema node ti : leave node (enter schema node ti) = ti.
Proof. destruct ti, node as [| | | [|] |]; reflexivity. Qed.

Lemma runUntilBreak_app {S : Type} (callback : FieldVisit -> S -> S * VisitorAction)
    (l1 l2 : list FieldVisit) (s : S) :
  runUntilBreak callback (l1 ++ l2) s
  = (let (s1, broke) := runUntilBreak callback l1 s in
     if broke then (s1, true) else runUntilBreak callback l2 s1).
Proof.
  revert s. induction l1 as [|v l1 IH]; intros s; simpl; [reflexivity|].
  destruct (callback v s) as [s' [|]]; [apply IH | reflexivity].
Qed.

Section VisitRefinement.
Variable S : Type.
Variable schema : GraphQLSchema.
Variable onField : TypeInfo -> string -> S -> S * VisitorAction.
Variable callback : FieldVisit -> S -> S * VisitorAction.
(** The callback reads the stacks through [getType] and [getParentType] only. *)
Hypothesis onField_callback :
  forall ti name s, onField ti name s = callback (visiting ti name) s.

Lemma visitSelection_Field alias name sels ti s :
  visitSelection schema onField (Field alias name sels) ti s
  = (let ti1 := enter schema (FIELD name) ti in
     let (s1, action) := onField ti1 name s in
     match action with
     | BREAK => (leave (FIELD name) ti1, s1, true)
     | NoAction =>
         let '(ti2, s2, broke) := visitSelectionSet schema onField sels ti1 s1 in
         if broke then (ti2, s2, true) else (leave (FIELD name) ti2, s2, false)
     end).
Proof. reflexivity. Qed.

Lemma visitSelection_InlineFragment typeCondition sels ti s :
  visitSelection schema onField (InlineFragment typeCondition sels) ti s
  = (let ti1 := enter schema (INLINE_FRAGMENT typeCondition) ti in
     let '(ti2, s2, broke) := visitSelectionSet schema onField sels ti1 s in
     if broke then (ti2, s2, true)
     else (leave (INLINE_FRAGMENT typeCondition) ti2, s2, false)).
Proof. reflexivity. Qed.

Lemma fieldsOfSelection_Field type parent alias name sels :
  fieldsOfSelection schema type parent (Field alias name sels)
  = (let declared :=
       outputOrUndefined schema
         (match parent with
          | Some p => getFieldDef schema p name
          | None => None
          end) in
     {| fieldName := name; parentType := parent; fieldType := declared |}
     :: fieldsOfSelectionSet schema declared sels).
Proof. reflexivity. Qed.

Lemma fieldsOfSelection_InlineFragment type parent typeCondition sels :
  fieldsOfSelection schema type parent (InlineFragment typeCondition sels)
  = fieldsOfSelectionSet schema
      (outputOrUndefined schema
         (match typeCondition with
          | Some condition => Some (NamedType condition)
          | None => option_map (fun t => NamedType (getNamedType t)) type
          end)) sels.
Proof. reflexivity. Qed.

Lemma visitSelections_agrees sels :
  Forall (selectionAgrees schema onField callback) sels ->
  forall ti s,
    agrees (visitSelections schema onField sels ti s) ti
           (runUntilBreak callback (fieldsOfSelections schema (getType ti) (getParentType ti) sels) s).
Proof.
  induction 1 as [|sel sels Hsel _ IH]; intros ti s.
  - repeat split.
  - cbn [visitSelections fieldsOfSelections].
    rewrite runUntilBreak_app.
    destruct (Hsel ti s) as (Hs & Hb & Hti).
    destruct (visitSelection schema onField sel ti s) as [[ti' s'] broke].
    destruct (runUntilBreak callback
                (fieldsOfSelection schema (getType ti) (getParentType ti) sel) s)
      as [s1 broke1].
    cbn [fst snd] in Hs, Hb, Hti. subst s1 broke1.
    destruct broke.
    + repeat split. intros Hfalse. discriminate Hfalse.
    + rewrite (Hti eq_refl). apply IH.
Qed.

Lemma visitSelectionSet_agrees sels ti s :
  Forall (selectionAgrees schema onField callback) sels ->
  agrees (visitSelectionSet schema onField sels ti s) ti
         (runUntilBreak callback (fieldsOfSelectionSet schema (getType ti) sels) s).
Proof.
  intros Hall. unfold visitSelectionSet, fieldsOfSelectionSet.
  pose proof (visitSelections_agrees Hall (enter schema SELECTION_SET ti) s) as H.
  assert (Htype : getType (enter schema SELECTION_SET ti) = getType ti)
    by reflexivity.
  assert (Hparent : getParentType (enter schema SELECTION_SET ti)
                    = compositeOrUndefined schema (getType ti))
    by reflexivity.
  rewrite Htype, Hparent in H.
  destruct (visitSelections schema onField sels (enter schema SELECTION_SET ti) s)
    as [[ti' s'] broke].
  destruct H as (Hs & Hb & Hti). cbn [fst snd] in Hs, Hb, Hti.
  destruct broke.
  - repeat split; auto. intros Hfalse. discriminate Hfalse.
  - repeat split; auto. intros _. cbn [fst]. rewrite (Hti eq_refl). apply leave_enter.
Qed.

Lemma visitSelection_agrees sel : selectionAgrees schema onField callback sel.
Proof.
  induction sel as [alias name sels IH | name | typeCondition sels IH]
    using SelectionNode_ind'; intros ti s.
  - rewrite visitSelection_Field, fieldsOfSelection_Field.
    cbv zeta. rewrite onField_callback. cbn [runUntilBreak].
    assert (Hseen : visiting (enter schema (FIELD name) ti) name
                    = {| fieldName := name;
                         parentType := getParentType ti;
                         fieldType :=
                           outputOrUndefined schema
                             (match getParentType ti with
                              | Some p => getFieldDef schema p name
                              | None => None
                              end) |}) by reflexivity.
    rewrite Hseen.
    destruct (callback _ s) as [s1 [|]].
    + pose proof (visitSelectionSet_agrees (enter schema (FIELD name) ti) s1 IH) as H.
      assert (Htype : getType (enter schema (FIELD name) ti)
                      = outputOrUndefined schema
                          (match getParentType ti with
                           | Some p => getFieldDef schema p name
                           | None => None
                           end)) by reflexivity.
      rewrite Htype in H.
      destruct (visitSelectionSet schema onField sels (enter schema (FIELD name) ti) s1)
        as [[ti2 s2] broke].
      destruct H as (Hs & Hb & Hti). cbn [fst snd] in Hs, Hb, Hti.
      destruct broke.
      * repeat split; auto. intros Hfalse. discriminate Hfalse.
      * repeat split; auto. intros _. cbn [fst]. rewrite (Hti eq_refl).
        apply leave_enter.
    + repeat split. intros Hfalse. discriminate Hfalse.
  - repeat split.
  - rewrite visitSelection_InlineFragment, fieldsOfSelection_InlineFragment.
    cbv zeta.
    pose proof (visitSelectionSet_agrees
                  (enter schema (INLINE_FRAGMENT typeCondition) ti) s IH) as H.
    assert (Htype : getType (enter schema (INLINE_FRAGMENT typeCondition) ti)
                    = outputOrUndefined schema
                        (match typeCondition with
                         | Some condition => Some (NamedType condition)
                         | None =>
                             option_map (fun t => NamedType (getNamedType t))
                                        (getType ti)
                         end)) by (destruct typeCondition; reflexivity).
    rewrite Htype in H.
    destruct (visitSelectionSet schema onField sels
                (enter schema (INLINE_FRAGMENT typeCondition) ti) s)
      as [[ti2 s2] broke].
    destruct H as (Hs & Hb & Hti). cbn [fst snd] in Hs, Hb, Hti.
    destruct broke.
    + repeat split; auto. intros Hfalse. discriminate Hfalse.
    + repeat split; auto. intros _. cbn [fst]. rewrite (Hti eq_refl).
      apply leave_enter.
Qed.

Lemma visitDefinition_agrees def ti s :
  agrees (visitDefinition schema onField def ti s) ti
         (runUntilBreak callback (fieldsOfDefinition schema def) s).
Proof.
  assert (Hsels : forall sels, Forall (selectionAgrees schema onField callback) sels).
  { intros sels. apply Forall_forall. intros sel _. apply visitSelection_agrees. }
  destruct def as [operation name sels | name typeCondition sels |];
    cbn [visitDefinition fieldsOfDefinition].
  - pose proof (visitSelectionSet_agrees
                  (enter schema (OPERATION_DEFINITION operation) ti) s (Hsels sels)) as H.
    change (getType (enter schema (OPERATION_DEFINITION operation) ti))
      with (match getRootType schema operation with
            | Some rootType =>
                if isObjectType schema rootType then Some (NamedType rootType) else None
            | None => None
            end) in H.
    destruct (visitSelectionSet schema onField sels _ s) as [[ti2 s2] broke].
    destruct H as (Hs & Hb & Hti). cbn [fst snd] in Hs, Hb, Hti.
    destruct broke.
    + repeat split; auto. intros Hfalse. discriminate Hfalse.
    + repeat split; auto. intros _. cbn [fst]. rewrite (Hti eq_refl).
      apply leave_enter.
  - pose proof (visitSelectionSet_agrees
                  (enter schema (FRAGMENT_DEFINITION typeCondition) ti) s (Hsels sels)) as H.
    change (getType (enter schema (FRAGMENT_DEFINITION typeCondition) ti))
      with (outputOrUndefined schema (Some (NamedType typeCondition))) in H.
    destruct (visitSelectionSet schema onField sels _ s) as [[ti2 s2] broke].
    destruct H as (Hs & Hb & Hti). cbn [fst snd] in Hs, Hb, Hti.
    destruct broke.
    + repeat split; auto. intros Hfalse. discriminate Hfalse.
    + repeat split; auto. intros _. cbn [fst]. rewrite (Hti eq_refl).
      apply leave_enter.
  - repeat split.
Qed.

Lemma visitDefinitions_agrees defs ti s :
  agrees (visitDefinitions schema onField defs ti s) ti
         (runUntilBreak callback (flat_map (fieldsOfDefinition schema) defs) s).
Proof.
  revert ti s. induction defs as [|def defs IH]; intros ti s.
  - repeat split.
  - cbn [visitDefinitions flat_map]. rewrite runUntilBreak_app.
    destruct (visitDefinition_agrees def ti s) as (Hs & Hb & Hti).
    destruct (visitDefinition schema onField def ti s) as [[ti' s'] broke].
    destruct (runUntilBreak callback (fieldsOfDefinition schema def) s) as [s1 broke1].
    cbn [fst snd] in Hs, Hb, Hti. subst s1 broke1.
    destruct broke.
    + repeat split. intros Hfalse. discriminate Hfalse.
    + rewrite (Hti eq_refl). apply IH.
Qed.

(** [visit] leaves the callback's variables as the run over the fields of
    the document, in document order, leaves them. *)
Lemma visit_runUntilBreak document ti s :
  visit schema onField document ti s
  = fst (runUntilBreak callback (fieldsOfDocument schema document) s).
Proof.
  unfold visit, fieldsOfDocument.
  exact (proj1 (visitDefinitions_agrees (definitions document) ti s)).
Qed.
End VisitRefinement.

(** ** The early-termination walkers *)

Lemma includes_In (l : list string) (x : string) : includes l x = true <-> In x l.
Proof.
  unfold includes. rewrite existsb_exists. split.
  - intros (y & Hin & Heq). apply String.eqb_eq in Heq. subst y. exact Hin.
  - intros Hin. exists x. split; [exact Hin | apply String.eqb_refl].
Qed.

Lemma runUntilBreak_flagWhen (p : FieldVisit -> bool) (visits : list FieldVisit)
    (flag : bool) :
  fst (runUntilBreak (flagWhen p) visits flag) = flag || existsb p visits.
Proof.
  revert flag. induction visits as [|v visits IH]; intros flag; cbn [runUntilBreak existsb].
  - rewrite orb_false_r. reflexivity.
  - unfold flagWhen at 1. destruct (p v); cbn [fst orb].
    + rewrite orb_true_r. reflexivity.
    + apply IH.
Qed.

Lemma runUntilBreak_recordingOver (p : FieldVisit -> bool) (visits : list FieldVisit)
    (flag : bool) (calls : list FieldVisit) :
  snd (fst (runUntilBreak (recordingOver (flagWhen p)) visits (flag, calls)))
  = (calls ++ throughFirst p visits)%list.
Proof.
  revert flag calls.
  induction visits as [|v visits IH]; intros flag calls;
    cbn [runUntilBreak throughFirst].
  - cbn. rewrite app_nil_r. reflexivity.
  - unfold recordingOver at 1, flagWhen at 1. cbn [fst snd].
    destruct (p v); cbn [fst snd].
    + reflexivity.
    + rewrite IH, <- app_assoc. reflexivity.
Qed.

Lemma recording_recordingOver {S : Type}
    (onField : TypeInfo -> string -> S -> S * VisitorAction)
    (callback : FieldVisit -> S -> S * VisitorAction) :
  (forall ti name s, onField ti name s = callback (visiting ti name) s) ->
  forall ti name s,
    recording onField ti name s = recordingOver callback (visiting ti name) s.
Proof.
  intros H ti name s. unfold recording, recordingOver. rewrite H. reflexivity.
Qed.

(** A flag-raising walker is the search for the first field with [p], and its
    callback runs on the fields through that one and on no later field. *)
Lemma flag_walker (schema : GraphQLSchema)
    (onField : TypeInfo -> string -> bool -> bool * VisitorAction)
    (p : FieldVisit -> bool) (document : DocumentNode) :
  (forall ti name flag, onField ti name flag = flagWhen p (visiting ti name) flag) ->
  visit schema onField document newTypeInfo false
  = existsb p (fieldsOfDocument schema document)
  /\ snd (visit schema (recording onField) document newTypeInfo (false, []))
     = throughFirst p (fieldsOfDocument schema document).
Proof.
  intros H. split.
  - rewrite (visit_runUntilBreak schema onField (flagWhen p) H).
    apply runUntilBreak_flagWhen.
  - rewrite (visit_runUntilBreak schema (recording onField)
               (recordingOver (flagWhen p)) (recording_recordingOver _ _ H)).
    apply runUntilBreak_recordingOver.
Qed.

Lemma throughFirst_prefix {A : Type} (p : A -> bool) (l : list A) :
  exists rest, l = (throughFirst p l ++ rest)%list.
Proof.
  induction l as [|x l [rest IH]]; cbn.
  - exists []. reflexivity.
  - destruct (p x).
    + exists l. reflexivity.
    + exists rest. cbn. f_equal. exact IH.
Qed.

Lemma throughFirst_before {A : Type} (p : A -> bool) (l : list A) (x : A) :
  In x (removelast (throughFirst p l)) -> p x = false.
Proof.
  induction l as [|y l IH]; cbn; [tauto|].
  destruct (p y) eqn:E; cbn; [tauto|].
  destruct (throughFirst p l) as [|z rest] eqn:Et; cbn; [tauto|].
  intros [<- | Hin]; [exact E | apply IH; exact Hin].
Qed.

Lemma isIntrospectionQuery_Field_flagWhen ti name flag :
  isIntrospectionQuery_Field ti name flag
  = flagWhen resolvesToIntrospectionType (visiting ti name) flag.
Proof.
  unfold isIntrospectionQuery_Field, flagWhen, resolvesToIntrospectionType, visiting.
  cbn [fieldType]. destruct (getType ti); reflexivity.
Qed.

Lemma denyType_Field_flagWhen typeDenyList ti name flag :
  denyType_Field typeDenyList ti name flag
  = flagWhen (fun v => match fieldType v with
                       | Some t => includes typeDenyList (getNamedType t)
                       | None => false
                       end) (visiting ti name) flag.
Proof.
  unfold denyType_Field, flagWhen, visiting.
  cbn [fieldType]. destruct (getType ti); reflexivity.
Qed.

Lemma denySchemaCoordinate_Field_flagWhen denyCoordinates ti name flag :
  denySchemaCoordinate_Field denyCoordinates ti name flag
  = flagWhen (onDeniedCoordinate denyCoordinates) (visiting ti name) flag.
Proof.
  unfold denySchemaCoordinate_Field, flagWhen, onDeniedCoordinate, visiting.
  cbn [parentType fieldName]. destruct (getParentType ti); reflexivity.
Qed.

(** denyType is true exactly when some field of the document has a resolved
    named output type on the configured types denylist. *)
Lemma denyType_touches (options : UseInngestDataOptions) :
  denyType options = true
  <-> exists v t,
        In v (fieldsOfDocument (schema (args (params options)))
                               (document (args (params options))))
        /\ fieldType v = Some t
        /\ In (getNamedType t) (typeDenyListOf options).
Proof.
  destruct (flag_walker (schema (args (params options)))
              (denyType_Field (typeDenyListOf options)) _
              (document (args (params options)))
              (denyType_Field_flagWhen (typeDenyListOf options))) as [Hvalue _].
  change (denyType options)
    with (visit (schema (args (params options)))
                (denyType_Field (typeDenyListOf options))
                (document (args (params options))) newTypeInfo false).
  rewrite Hvalue, existsb_exists. split.
  - intros (v & Hin & Hp). destruct (fieldType v) as [t|] eqn:E; [|discriminate Hp].
    exists v, t. repeat split; auto. apply includes_In. exact Hp.
  - intros (v & t & Hin & Ht & Hdenied). exists v. split; [exact Hin|].
    rewrite Ht. apply includes_In. exact Hdenied.
Qed.

(** C6. isIntrospectionQuery is true exactly when some field of the
    document's selection structure, typed from the schema, has a resolved
    named output type among the introspection types; its callback runs on the
    fields in document order through the first such field and on none after
    it. The document is only read: the callback hands back nothing or BREAK,
    never a node. *)
Theorem isIntrospectionQuery_first_introspection_field (params : OnExecuteEventPayload) :
  let visited := fieldsOfDocument (schema (args params)) (document (args params)) in
  (isIntrospectionQuery params = true
   <-> exists v, In v visited /\ resolvesToIntrospectionType v = true)
  /\ isIntrospectionQuery_calls params = throughFirst resolvesToIntrospectionType visited
  /\ (exists rest, visited = (isIntrospectionQuery_calls params ++ rest)%list)
  /\ (forall v, In v (removelast (isIntrospectionQuery_calls params)) ->
                resolvesToIntrospectionType v = false).
Proof.
  intros visited.
  destruct (flag_walker (schema (args params)) isIntrospectionQuery_Field
              resolvesToIntrospectionType (document (args params))
              isIntrospectionQuery_Field_flagWhen) as [Hvalue Hcalls].
  fold visited in Hvalue, Hcalls.
  unfold isIntrospectionQuery, isIntrospectionQuery_calls.
  rewrite Hvalue, Hcalls.
  split; [apply existsb_exists|].
  split; [reflexivity|].
  split; [apply throughFirst_prefix | apply throughFirst_before].
Qed.

(** C7. denySchemaCoordinate is true exactly when some field of the document
    has a parent type and the string parentTypeName.fieldName is on the
    configured schemaCoordinates denylist; with the denylist, or its
    schemaCoordinates, absent it is false for every document. *)
Theorem denySchemaCoordinate_parent_and_field (options : UseInngestDataOptions) :
  let visited := fieldsOfDocument (schema (args (params options)))
                                  (document (args (params options))) in
  (denySchemaCoordinate options = true
   <-> exists v parent,
         In v visited /\ parentType v = Some parent
         /\ In (parent ++ "." ++ fieldName v) (schemaCoordinateDenyListOf options))
  /\ ((forall d, denylist options = Some d -> Denylist.schemaCoordinates d = None) ->
      denySchemaCoordinate options = false).
Proof.
  intros visited.
  destruct (flag_walker (schema (args (params options)))
              (denySchemaCoordinate_Field (schemaCoordinateDenyListOf options))
              (onDeniedCoordinate (schemaCoordinateDenyListOf options))
              (document (args (params options)))
              (denySchemaCoordinate_Field_flagWhen _)) as [Hvalue _].
  fold visited in Hvalue.
  change (denySchemaCoordinate options)
    with (visit (schema (args (params options)))
                (denySchemaCoordinate_Field (schemaCoordinateDenyListOf options))
                (document (args (params options))) newTypeInfo false).
  rewrite Hvalue. split.
  - rewrite existsb_exists. unfold onDeniedCoordinate. split.
    + intros (v & Hin & Hp). destruct (parentType v) as [parent|] eqn:E;
        [|discriminate Hp].
      exists v, parent. repeat split; auto. apply includes_In. exact Hp.
    + intros (v & parent & Hin & Hparent & Hcoord). exists v. split; [exact Hin|].
      rewrite Hparent. apply includes_In. exact Hcoord.
  - intros Habsent.
    assert (Hnil : schemaCoordinateDenyListOf options = []).
    { unfold schemaCoordinateDenyListOf.
      destruct (denylist options) as [d|]; [|reflexivity].
      rewrite (Habsent d eq_refl). reflexivity. }
    rewrite Hnil. clear Hvalue.
    induction visited as [|v visited IH]; [reflexivity|].
    cbn [existsb]. rewrite IH. unfold onDeniedCoordinate.
    destruct (parentType v); reflexivity.
Qed.

(** [query FindPosts { posts { id } }]: 'Post.id' on the list denies, by the
    parent type Post of the field id (whose own type is ID); a configuration
    without denylist denies nothing. *)
Lemma denySchemaCoordinate_parent_and_field_witness :
  denySchemaCoordinate
    (queriesAllowed findPosts None None (denyCoordinates ["Post.id"]) false false false)
  = true
  /\ denySchemaCoordinate
       (queriesAllowed findPosts None None (denyCoordinates ["ID.id"; "Post"; "ID"])
                       false false false)
     = false
  /\ denySchemaCoordinate (noAllowList findPosts) = false.
Proof.
  split; [|split].
  - apply (proj1 (denySchemaCoordinate_parent_and_field
                    (queriesAllowed findPosts None None (denyCoordinates ["Post.id"])
                                    false false false))).
    exists {| fieldName := "id"; parentType := Some "Post"; fieldType := Some (nn "ID") |},
           "Post".
    cbn. auto.
  - reflexivity.
  - apply (proj2 (denySchemaCoordinate_parent_and_field (noAllowList findPosts))).
    intros d H. discriminate H.
Defined.

(** ** The result walk under two visitor maps *)

Lemma JsValue_ind' (P : JsValue -> Prop) :
  P JsUndefined -> P JsNull -> (forall b, P (JsBool b)) -> (forall n, P (JsNumber n)) ->
  (forall s, P (JsString s)) ->
  (forall items, Forall P items -> P (JsArray items)) ->
  (forall props, Forall (fun kv => P (snd kv)) props -> P (JsObject props)) ->
  forall v, P v.
Proof.
  intros Hundefined Hnull Hbool Hnumber Hstring Harray Hobject.
  fix IH 1.
  intros [| | b | n | s | items | props];
    [exact Hundefined | exact Hnull | apply Hbool | apply Hnumber | apply Hstring | | ].
  - apply Harray. induction items as [|item items IHitems]; constructor;
      [apply IH | exact IHitems].
  - apply Hobject. induction props as [|[key v] props IHprops]; constructor;
      [apply IH | exact IHprops].
Qed.

Section RelatedWalks.
Variables S1 S2 : Type.
Variable R : S1 -> S2 -> Prop.
Variable schema : GraphQLSchema.
Variable fragments : list (string * (string * list SelectionNode)).
Variable m1 : string -> string -> option (JsValue -> S1 -> S1).
Variable m2 : string -> string -> option (JsValue -> S2 -> S2).
Hypothesis Hmaps : relatedVisitorMaps R m1 m2.

Lemma bindO_related (o1 : Outcome S1) (o2 : Outcome S2)
    (k1 : S1 -> Outcome S1) (k2 : S2 -> Outcome S2) :
  relatedOutcomes R o1 o2 ->
  (forall a b, R a b -> relatedOutcomes R (k1 a) (k2 b)) ->
  relatedOutcomes R (bindO o1 k1) (bindO o2 k2).
Proof.
  destruct o1 as [a|e1], o2 as [b|e2]; cbn; intros H Hk; try contradiction; auto.
Qed.

Lemma updateObject_related type fieldName newItem s1 s2 :
  R s1 s2 ->
  R (updateObject m1 type fieldName newItem s1) (updateObject m2 type fieldName newItem s2).
Proof.
  intros H. unfold updateObject. pose proof (Hmaps type fieldName) as Hm.
  destruct (m1 type fieldName), (m2 type fieldName); try contradiction; auto.
Qed.

Lemma assoc_relatedBelow b1 b2 key :
  relatedBelow R b1 b2 ->
  match assoc b1 key, assoc b2 key with
  | Some w1, Some w2 => relatedWalks R w1 w2
  | None, None => True
  | _, _ => False
  end.
Proof.
  induction 1 as [|[k1 w1] [k2 w2] b1 b2 [Hkey Hwalk] _ IH]; cbn; [exact I|].
  cbn in Hkey, Hwalk. subst k2. destruct (String.eqb k1 key); [exact Hwalk | exact IH].
Qed.

Lemma visitObjectValue_related props b1 b2 type fieldNodeMap s1 s2 :
  relatedBelow R b1 b2 -> R s1 s2 ->
  relatedOutcomes R
    (visitObjectValue schema m1 props b1 type fieldNodeMap s1)
    (visitObjectValue schema m2 props b2 type fieldNodeMap s2).
Proof.
  intros Hbelow Hs. unfold visitObjectValue.
  apply bindO_related.
  - assert (Hacc : relatedOutcomes R (Returns s1) (Returns s2)) by exact Hs.
    revert Hacc. generalize (Returns s1) (Returns s2).
    induction fieldNodeMap as [|[responseKey subFieldNodes] rest IH];
      intros o1 o2 Hacc; cbn [fold_left]; [exact Hacc|].
    apply IH. apply bindO_related; [exact Hacc|].
    intros a b Hab. destruct subFieldNodes as [|[[alias fieldName] sels] others];
      [exact Hab|].
    apply bindO_related.
    + pose proof (assoc_relatedBelow responseKey Hbelow) as Hw.
      destruct (assoc b1 responseKey), (assoc b2 responseKey); try contradiction.
      * apply Hw. exact Hab.
      * exact Hab.
    + intros a' b' Hab'. cbn. apply updateObject_related. exact Hab'.
  - intros a b Hab.
    destruct (getProp props "__typename"); cbn;
      first [exact Hab | apply updateObject_related; exact Hab].
Qed.

Lemma visitComposite_related props b1 b2 type fieldNodes s1 s2 :
  relatedBelow R b1 b2 -> R s1 s2 ->
  relatedOutcomes R
    (visitComposite schema fragments m1 props b1 type fieldNodes s1)
    (visitComposite schema fragments m2 props b2 type fieldNodes s2).
Proof.
  intros Hbelow Hs. unfold visitComposite.
  destruct (isAbstractType schema type).
  - destruct (getProp props "__typename"); try reflexivity.
    destruct (lookupType schema s); [|reflexivity].
    apply visitObjectValue_related; assumption.
  - apply visitObjectValue_related; assumption.
Qed.

Lemma visitByType_related (l1 : option (Walk S1)) (l2 : option (Walk S2)) props b1 b2 :
  match l1, l2 with
  | Some w1, Some w2 => relatedWalks R w1 w2
  | None, None => True
  | _, _ => False
  end ->
  relatedBelow R b1 b2 ->
  relatedWalks R (visitByType schema fragments m1 l1 props b1)
                 (visitByType schema fragments m2 l2 props b2).
Proof.
  intros Hlist Hbelow returnType fieldNodes s1 s2 Hs. unfold visitByType.
  destruct returnType as [returnType|]; [|reflexivity].
  destruct (getNullableType returnType) as [name | ofType | ofType].
  - destruct (isAbstractType schema _ || isObjectType schema _);
      [apply visitComposite_related; assumption | exact Hs].
  - destruct l1, l2; try contradiction; [apply Hlist; exact Hs | reflexivity].
  - destruct (isAbstractType schema _ || isObjectType schema _);
      [apply visitComposite_related; assumption | exact Hs].
Qed.

Lemma visitFieldValue_related value :
  relatedWalks R (visitFieldValue schema fragments m1 value)
                 (visitFieldValue schema fragments m2 value).
Proof.
  induction value as [| | b | n | s | items IH | props IH] using JsValue_ind';
    cbn [visitFieldValue];
    try (apply visitByType_related; [exact I | constructor]);
    try (intros returnType fieldNodes s1 s2 Hs; exact Hs).
  - apply visitByType_related; [|constructor].
    intros ofType fieldNodes. induction IH as [|item items Hitem _ IHitems];
      intros s1 s2 Hs; [exact Hs|].
    apply bindO_related; [apply Hitem; exact Hs|].
    intros a b Hab. apply IHitems. exact Hab.
  - apply visitByType_related; [exact I|].
    induction IH as [|[key v] props Hv _ IHprops]; constructor; [|exact IHprops].
    split; [reflexivity | exact Hv].
Qed.
End RelatedWalks.

Lemma visitResult_related {S1 S2 : Type} (R : S1 -> S2 -> Prop) (schema : GraphQLSchema)
    (m1 : string -> string -> option (JsValue -> S1 -> S1))
    (m2 : string -> string -> option (JsValue -> S2 -> S2))
    (Hmaps : relatedVisitorMaps R m1 m2) result document operationName s1 s2 :
  R s1 s2 ->
  relatedOutcomes R (visitResult result document operationName schema m1 s1)
                    (visitResult result document operationName schema m2 s2).
Proof.
  intros Hs. unfold visitResult.
  destruct result as [result|]; [|reflexivity].
  destruct (getOperationAST document operationName) as [[[operationType name] sels]|];
    [|reflexivity].
  destruct (data result) as [d|]; [|exact Hs].
  destruct d; try exact Hs; unfold visitRoot;
    (destruct (getRootType schema operationType);
     [apply (visitFieldValue_related schema (fragmentsOf document) Hmaps); exact Hs
     | reflexivity]).
Qed.

(** ** Recording the identifiers *)

Lemma identifier_listing_maps :
  relatedVisitorMaps collectionsOf identifierVisitorMap listingVisitorMap.
Proof.
  intros typename fieldName. unfold identifierVisitorMap, listingVisitorMap.
  destruct (includes idFields fieldName); [|exact I].
  intros v c seen Hc. unfold collectionsOf in *.
  rewrite fold_left_app. cbn [fold_left]. rewrite <- Hc. reflexivity.
Qed.

(** buildTypeIdentifiers is the recording, in the order of the walk, of the
    pairs the walk comes across. *)
Lemma buildTypeIdentifiers_observedPairs options :
  buildTypeIdentifiers options
  = bindO (observedPairs options)
          (fun seen =>
             let c := fold_left recordEntity seen noCollections in
             Returns {| types := typeSet c; identifiers := map snd (identifierSet c) |}).
Proof.
  unfold buildTypeIdentifiers, observedPairs.
  destruct (getOperationName (params options)) as [name|e]; [|reflexivity].
  cbn [bindO].
  pose proof (visitResult_related (schema (args (params options)))
                identifier_listing_maps (result options)
                (document (args (params options))) name noCollections []
                (eq_refl : collectionsOf noCollections [])) as H.
  fold noCollections.
  destruct (visitResult _ _ _ _ identifierVisitorMap _) as [c|e1],
           (visitResult _ _ _ _ listingVisitorMap _) as [seen|e2];
    cbn in H; try contradiction.
  - cbn [bindO]. unfold collectionsOf in H. rewrite <- H. reflexivity.
  - subst e2. reflexivity.
Qed.

Lemma Map_set_In {V : Type} (m : list (string * V)) key value k v :
  In (k, v) (Map_set m key value) -> (k = key /\ v = value) \/ In (k, v) m.
Proof.
  induction m as [|[k0 v0] m IH]; cbn.
  - intros [H|[]]. injection H as <- <-. auto.
  - destruct (String.eqb k0 key) eqn:E; cbn.
    + apply String.eqb_eq in E. subst k0.
      intros [H|H]; [injection H as <- <-; auto | auto].
    + intros [H|H]; [auto | destruct (IH H); auto].
Qed.

Lemma Map_set_keys {V : Type} (m : list (string * V)) key value k :
  In k (map fst (Map_set m key value)) <-> k = key \/ In k (map fst m).
Proof.
  induction m as [|[k0 v0] m IH]; cbn.
  - intuition.
  - destruct (String.eqb k0 key) eqn:E; cbn.
    + apply String.eqb_eq in E. subst k0. intuition.
    + rewrite IH. intuition.
Qed.

Lemma Map_set_NoDup {V : Type} (m : list (string * V)) key value :
  NoDup (map fst m) -> NoDup (map fst (Map_set m key value)).
Proof.
  induction m as [|[k0 v0] m IH]; cbn; intros Hnd.
  - constructor; [intros [] | constructor].
  - inversion Hnd as [|? ? Hnotin Hrest]; subst.
    destruct (String.eqb k0 key) eqn:E; cbn.
    + constructor; assumption.
    + constructor; [|apply IH; exact Hrest].
      rewrite Map_set_keys. intros [Heq|Hin]; [|contradiction].
      subst k0. rewrite String.eqb_refl in E. discriminate E.
Qed.

Lemma Set_add_In (s : list string) (x y : string) :
  In y (Set_add s x) <-> y = x \/ In y s.
Proof.
  unfold Set_add. destruct (includes s x) eqn:E.
  - apply includes_In in E. split; [auto | intros [->|H]; assumption].
  - rewrite in_app_iff. cbn. intuition.
Qed.

Lemma Set_add_NoDup (s : list string) (x : string) : NoDup s -> NoDup (Set_add s x).
Proof.
  intros Hnd. unfold Set_add. destruct (includes s x) eqn:E; [exact Hnd|].
  assert (Hnotin : ~ In x s).
  { intros Hin. apply includes_In in Hin. congruence. }
  clear E. induction Hnd as [|y s Hy Hnd IH]; cbn.
  - constructor; [intros [] | constructor].
  - constructor.
    + rewrite in_app_iff. cbn. intros [H|[H|[]]]; [contradiction|].
      subst y. apply Hnotin. left. reflexivity.
    + apply IH. intros Hin. apply Hnotin. right. exact Hin.
Qed.

(** What holds of the two collections after recording the pairs [seen]. *)
Lemma recorded_collections (seen : list Entity.t) :
  let c := fold_left recordEntity seen noCollections in
  NoDup (map fst (identifierSet c))
  /\ (forall k e, In (k, e) (identifierSet c) -> k = keyOf e /\ In e seen)
  /\ (forall e, In e seen -> In (keyOf e) (map fst (identifierSet c)))
  /\ NoDup (typeSet c)
  /\ (forall t, In t (typeSet c) <-> exists e, In e seen /\ Entity.typename e = t).
Proof.
  induction seen as [|e seen IH] using rev_ind; cbn zeta.
  - cbn. split; [constructor|]. split; [intros k e []|]. split; [intros e []|].
    split; [constructor|]. intros t. split; [intros [] | intros (e & [] & _)].
  - cbn zeta in IH. rewrite fold_left_app. cbn [fold_left].
    set (c := fold_left recordEntity seen noCollections) in *.
    destruct IH as (Hkeys & Hentries & Hpresent & Htypes & Hmember).
    unfold recordEntity, recordIdentifier. cbn [identifierSet typeSet].
    fold (keyOf e).
    split; [apply Map_set_NoDup; exact Hkeys|].
    split.
    { intros k e' Hin. apply Map_set_In in Hin.
      destruct e as [tn i]. cbn [Entity.typename Entity.id] in Hin.
      destruct Hin as [[-> ->] | Hin].
      - split; [reflexivity | apply in_or_app; right; left; reflexivity].
      - destruct (Hentries _ _ Hin) as [Hk Hs].
        split; [exact Hk | apply in_or_app; left; exact Hs]. }
    split.
    { intros e' Hin. apply Map_set_keys. apply in_app_or in Hin.
      destruct Hin as [Hin | [<- | []]]; [right; apply Hpresent; exact Hin | left; reflexivity]. }
    split; [apply Set_add_NoDup; exact Htypes|].
    intros t. rewrite Set_add_In, Hmember. split.
    + intros [-> | (e' & Hin & Ht)].
      * exists e. split; [apply in_or_app; right; left; reflexivity | reflexivity].
      * exists e'. split; [apply in_or_app; left; exact Hin | exact Ht].
    + intros (e' & Hin & Ht). apply in_app_or in Hin.
      destruct Hin as [Hin | [<- | []]]; [right; exists e'; auto | left; auto].
Qed.

Lemma entries_keys (m : list (string * Entity.t)) :
  (forall k e, In (k, e) m -> k = keyOf e) -> map keyOf (map snd m) = map fst m.
Proof.
  induction m as [|[k e] m IH]; cbn; intros H; [reflexivity|].
  rewrite IH by (intros k' e' Hin; apply H; right; exact Hin).
  rewrite (H k e (or_introl eq_refl)). reflexivity.
Qed.

Lemma NoDup_map_back {A B : Type} (f : A -> B) (l : list A) :
  NoDup (map f l) -> NoDup l.
Proof.
  induction l as [|x l IH]; cbn; intros H; [constructor|].
  inversion H as [|? ? Hnotin Hrest]; subst.
  constructor; [|apply IH; exact Hrest].
  intros Hin. apply Hnotin. apply in_map. exact Hin.
Qed.

(** C2, as amended. Whenever the walk of the result completes, having come
    across the pairs [seen], buildTypeIdentifiers returns exactly one
    EntityIdentifier per distinct key typename:String(id) among them, each an
    observed pair; so exactly one per distinct pair when distinct observed
    pairs have distinct keys; and its types list has exactly one entry per
    distinct observed typename. *)
Theorem buildTypeIdentifiers_one_per_key (options : UseInngestDataOptions)
    (seen : list Entity.t)
    (Hseen : observedPairs options = Returns seen) :
  exists r,
    buildTypeIdentifiers options = Returns r
    /\ NoDup (map keyOf (identifiers r))
    /\ (forall e, In e (identifiers r) -> In e seen)
    /\ (forall e, In e seen -> exists e', In e' (identifiers r) /\ keyOf e' = keyOf e)
    /\ ((forall e e', In e seen -> In e' seen -> keyOf e = keyOf e' -> e = e') ->
        NoDup (identifiers r) /\ forall e, In e (identifiers r) <-> In e seen)
    /\ NoDup (types r)
    /\ (forall t, In t (types r) <-> exists e, In e seen /\ Entity.typename e = t).
Proof.
  rewrite buildTypeIdentifiers_observedPairs, Hseen. cbn [bindO].
  destruct (recorded_collections seen) as (Hkeys & Hentries & Hpresent & Htypes & Hmember).
  set (c := fold_left recordEntity seen noCollections) in *.
  eexists. split; [reflexivity|]. cbn [identifiers types].
  assert (Hk : map keyOf (map snd (identifierSet c)) = map fst (identifierSet c))
    by (apply entries_keys; intros k e Hin; apply (Hentries k e Hin)).
  assert (Hsub : forall e, In e (map snd (identifierSet c)) -> In e seen).
  { intros e Hin. apply in_map_iff in Hin. destruct Hin as ([k e'] & Heq & Hin).
    cbn in Heq. subst e'. apply (Hentries k e Hin). }
  assert (Hcover : forall e, In e seen ->
                   exists e', In e' (map snd (identifierSet c)) /\ keyOf e' = keyOf e).
  { intros e Hin. apply Hpresent in Hin. apply in_map_iff in Hin.
    destruct Hin as ([k e'] & Heq & Hin). cbn in Heq. subst k.
    exists e'. split; [apply in_map_iff; exists (keyOf e, e'); auto|].
    symmetry. apply (Hentries _ _ Hin). }
  split; [rewrite Hk; exact Hkeys|].
  split; [exact Hsub|].
  split; [exact Hcover|].
  split; [|split; [exact Htypes | exact Hmember]].
  intros Hinj. split.
  - apply (NoDup_map_back keyOf). rewrite Hk. exact Hkeys.
  - intros e. split; [apply Hsub|].
    intros Hin. destruct (Hcover e Hin) as (e' & Hin' & Hkey).
    rewrite <- (Hinj e' e (Hsub e' Hin') Hin Hkey). exact Hin'.
Qed.

(** The post 5 in two list slots gives one EntityIdentifier and one type. *)
Lemma buildTypeIdentifiers_one_per_key_witness :
  exists r,
    buildTypeIdentifiers
      (extractFrom findPosts (resultWithPosts [five; seven; five]))
    = Returns r
    /\ NoDup (identifiers r)
    /\ (forall e, In e (identifiers r)
                  <-> In e [postEntity (five); postEntity (seven);
                            postEntity (five)])
    /\ NoDup (types r)
    /\ (In "Post" (types r)).
Proof.
  destruct (buildTypeIdentifiers_one_per_key
              (extractFrom findPosts (resultWithPosts [five; seven; five]))
              (seen := [postEntity (five); postEntity (seven);
                        postEntity (five)])
              eq_refl)
    as (r & Hr & _ & _ & _ & Hdistinct & Htypes & Hmember).
  exists r. split; [exact Hr|].
  assert (Hkeys : forall e e',
            In e [postEntity (five); postEntity (seven); postEntity (five)] ->
            In e' [postEntity (five); postEntity (seven); postEntity (five)] ->
            keyOf e = keyOf e' -> e = e').
  { intros e e' He He' Hk. cbn in He, He'.
    destruct He as [<-|[<-|[<-|[]]]], He' as [<-|[<-|[<-|[]]]];
      try reflexivity; vm_compute in Hk; discriminate Hk. }
  destruct (Hdistinct Hkeys) as [Hnodup Hsame].
  split; [exact Hnodup|]. split; [exact Hsame|]. split; [exact Htypes|].
  apply Hmember. exists (postEntity (five)). split; [left|]; reflexivity.
Defined.

(** C2, as stated, fails when two distinct pairs print alike: with the ids 5
    and '5' under Post the walk comes across two distinct pairs, and one
    EntityIdentifier is produced; the pair (Post, 5) has none. *)
Lemma buildTypeIdentifiers_merges_ids_that_print_alike :
  observedPairs (extractFrom findPosts (resultWithPosts [five; JsString "5"]))
  = Returns [postEntity (five); postEntity (JsString "5")]
  /\ postEntity (five) <> postEntity (JsString "5")
  /\ buildTypeIdentifiers
       (extractFrom findPosts (resultWithPosts [five; JsString "5"]))
     = Returns {| types := ["Post"]; identifiers := [postEntity (JsString "5")] |}
  /\ ~ In (postEntity (five)) [postEntity (JsString "5")].
Proof.
  split; [reflexivity|]. split; [discriminate|]. split; [reflexivity|].
  intros [H|[]]. discriminate H.
Qed.

(** [query { __schema { types { name } } posts { id } }]: the callback runs on
    the field __schema alone, though five fields are there to visit. *)
Lemma isIntrospectionQuery_first_introspection_field_witness :
  isIntrospectionQuery (executeParams introspectionFirst None) = true
  /\ isIntrospectionQuery_calls (executeParams introspectionFirst None)
     = [ {| fieldName := "__schema"; parentType := Some "Query";
            fieldType := Some (nn "__Schema") |} ]
  /\ length (fieldsOfDocument testSchema {| definitions := introspectionFirst |}) = 5
  /\ isIntrospectionQuery (executeParams findPosts None) = false.
Proof.
  pose proof (isIntrospectionQuery_first_introspection_field
                (executeParams introspectionFirst None)) as H.
  cbv zeta in H. destruct H as (Hvalue & Hcalls & _ & _).
  split.
  - apply Hvalue.
    exists {| fieldName := "__schema"; parentType := Some "Query";
              fieldType := Some (nn "__Schema") |}.
    split; [left|]; reflexivity.
  - split; [rewrite Hcalls; reflexivity|]. split; reflexivity.
Defined.

(** ** Which calls return *)




(** ** collectFields follows every spread it has to *)

Lemma assoc_In_keys {V : Type} (l : list (string * V)) key v :
  assoc l key = Some v -> In key (map fst l).
Proof.
  induction l as [|[k v0] l IH]; cbn; [discriminate|].
  destruct (String.eqb k key) eqn:E.
  - apply String.eqb_eq in E. auto.
  - intros H. right. apply IH. exact H.
Qed.

Lemma filter_length_mono {A : Type} (p q : A -> bool) (l : list A) :
  (forall x, q x = true -> p x = true) ->
  length (filter q l) <= length (filter p l).
Proof.
  intros Hpq. induction l as [|x l IH]; cbn; [lia|].
  destruct (q x) eqn:Eq.
  - rewrite (Hpq x Eq). cbn. lia.
  - destruct (p x); cbn; lia.
Qed.

Lemma filter_length_lt {A : Type} (p q : A -> bool) (l : list A) (x : A) :
  (forall y, q y = true -> p y = true) ->
  In x l -> p x = true -> q x = false ->
  length (filter q l) < length (filter p l).
Proof.
  intros Hpq. induction l as [|y l IH]; cbn; [tauto|].
  intros [<- | Hin] Hp Hq.
  - rewrite Hp, Hq. cbn. pose proof (filter_length_mono p q l Hpq). lia.
  - specialize (IH Hin Hp Hq). destruct (q y) eqn:Eq.
    + rewrite (Hpq y Eq). cbn. lia.
    + destruct (p y); cbn; lia.
Qed.

Lemma includes_false_not_In (l : list string) (x : string) :
  includes l x = false <-> ~ In x l.
Proof.
  rewrite <- includes_In. destruct (includes l x); split; congruence.
Qed.

Lemma pendingFragments_incl fragments acc acc' :
  incl (visitedFragmentNames acc) (visitedFragmentNames acc') ->
  pendingFragments fragments acc' <= pendingFragments fragments acc.
Proof.
  intros Hincl. apply filter_length_mono. intros x Hx.
  apply negb_true_iff in Hx. apply negb_true_iff.
  apply includes_false_not_In. apply includes_false_not_In in Hx.
  intros Hin. apply Hx. apply Hincl. exact Hin.
Qed.

Lemma pendingFragments_mark fragments acc fragName fragment :
  assoc fragments fragName = Some fragment ->
  includes (visitedFragmentNames acc) fragName = false ->
  pendingFragments fragments
    {| collectedFields := collectedFields acc;
       visitedFragmentNames := fragName :: visitedFragmentNames acc |}
  < pendingFragments fragments acc.
Proof.
  intros Hdef Hnew. unfold pendingFragments. cbn [visitedFragmentNames].
  apply filter_length_lt with (x := fragName).
  - intros y Hy. apply negb_true_iff in Hy. apply negb_true_iff.
    apply includes_false_not_In. apply includes_false_not_In in Hy.
    intros Hin. apply Hy. right. exact Hin.
  - apply nodup_In. eapply assoc_In_keys. exact Hdef.
  - rewrite Hnew. reflexivity.
  - apply negb_false_iff. apply includes_In. left. reflexivity.
Qed.

Section FollowingSpreads.
Variable schema : GraphQLSchema.
Variable fragments : list (string * (string * list SelectionNode)).
Variable runtimeType : string.

Lemma collectSelection_InlineFragment collectFragment typeCondition sels acc :
  collectSelection schema fragments runtimeType collectFragment
                   (InlineFragment typeCondition sels) acc
  = if doesFragmentConditionMatch schema typeCondition runtimeType
    then collectSelections schema fragments runtimeType collectFragment sels acc
    else acc.
Proof.
  cbn [collectSelection].
  destruct (doesFragmentConditionMatch schema typeCondition runtimeType); [|reflexivity].
  revert acc. induction sels as [|sel sels IH]; intros acc; [reflexivity|].
  cbn [collectSelections fold_left]. rewrite IH. reflexivity.
Qed.

Lemma collectSelections_cons collectFragment sel sels acc :
  collectSelections schema fragments runtimeType collectFragment (sel :: sels) acc
  = collectSelections schema fragments runtimeType collectFragment sels
      (collectSelection schema fragments runtimeType collectFragment sel acc).
Proof. reflexivity. Qed.

Lemma collectSelection_grows collectFragment :
  growsVisited collectFragment ->
  forall sel acc,
    incl (visitedFragmentNames acc)
         (visitedFragmentNames
            (collectSelection schema fragments runtimeType collectFragment sel acc)).
Proof.
  intros Hgrows.
  induction sel as [alias name sels IH | fragName | typeCondition sels IH]
    using SelectionNode_ind'; intros acc.
  - cbn. apply incl_refl.
  - cbn [collectSelection].
    destruct (includes (visitedFragmentNames acc) fragName); [apply incl_refl|].
    destruct (assoc fragments fragName) as [[typeCondition sels]|];
      [|apply incl_tl, incl_refl].
    destruct (doesFragmentConditionMatch schema (Some typeCondition) runtimeType);
      [|apply incl_tl, incl_refl].
    eapply incl_tran; [|apply Hgrows]. cbn. apply incl_tl, incl_refl.
  - rewrite collectSelection_InlineFragment.
    destruct (doesFragmentConditionMatch schema typeCondition runtimeType);
      [|apply incl_refl].
    revert acc. induction IH as [|sel sels Hsel _ IHsels]; intros acc;
      [apply incl_refl|].
    rewrite collectSelections_cons.
    eapply incl_tran; [apply Hsel | apply IHsels].
Qed.

Lemma collectSelections_grows collectFragment :
  growsVisited collectFragment ->
  growsVisited (collectSelections schema fragments runtimeType collectFragment).
Proof.
  intros Hgrows sels. induction sels as [|sel sels IH]; intros acc; [apply incl_refl|].
  rewrite collectSelections_cons.
  eapply incl_tran; [apply (collectSelection_grows Hgrows) | apply IH].
Qed.

Lemma collectFieldsImpl_grows depth :
  growsVisited (collectFieldsImpl depth schema fragments runtimeType).
Proof.
  induction depth as [|depth IH]; cbn [collectFieldsImpl];
    apply collectSelections_grows; [intros sels acc; apply incl_refl | exact IH].
Qed.

(** Two ways of following a spread that agree while fewer than [bound]
    fragments are pending give the same collection while at most [bound]
    are. *)
Lemma collectSelection_agree (follow1 follow2 : list SelectionNode -> Collected -> Collected)
    (bound : nat) :
  growsVisited follow2 ->
  (forall sels acc, pendingFragments fragments acc < bound ->
                    follow1 sels acc = follow2 sels acc) ->
  forall sel acc,
    pendingFragments fragments acc <= bound ->
    collectSelection schema fragments runtimeType follow1 sel acc
    = collectSelection schema fragments runtimeType follow2 sel acc.
Proof.
  intros Hgrows Hagree.
  induction sel as [alias name sels IH | fragName | typeCondition sels IH]
    using SelectionNode_ind'; intros acc Hbound.
  - reflexivity.
  - cbn [collectSelection].
    destruct (includes (visitedFragmentNames acc) fragName) eqn:Evisited; [reflexivity|].
    destruct (assoc fragments fragName) as [[typeCondition sels]|] eqn:Edef;
      [|reflexivity].
    destruct (doesFragmentConditionMatch schema (Some typeCondition) runtimeType);
      [|reflexivity].
    apply Hagree.
    pose proof (pendingFragments_mark fragments acc fragName Edef Evisited). lia.
  - rewrite !collectSelection_InlineFragment.
    destruct (doesFragmentConditionMatch schema typeCondition runtimeType);
      [|reflexivity].
    revert acc Hbound. induction IH as [|sel sels Hsel _ IHsels]; intros acc Hbound;
      [reflexivity|].
    rewrite !collectSelections_cons, (Hsel acc Hbound).
    apply IHsels.
    pose proof (@pendingFragments_incl fragments _ _
                  (collectSelection_grows Hgrows sel acc)). lia.
Qed.

Lemma collectSelections_agree (follow1 follow2 : list SelectionNode -> Collected -> Collected)
    (bound : nat) :
  growsVisited follow2 ->
  (forall sels acc, pendingFragments fragments acc < bound ->
                    follow1 sels acc = follow2 sels acc) ->
  forall sels acc,
    pendingFragments fragments acc <= bound ->
    collectSelections schema fragments runtimeType follow1 sels acc
    = collectSelections schema fragments runtimeType follow2 sels acc.
Proof.
  intros Hgrows Hagree sels.
  induction sels as [|sel sels IH]; intros acc Hbound; [reflexivity|].
  rewrite !collectSelections_cons,
    (@collectSelection_agree follow1 follow2 bound Hgrows Hagree sel acc Hbound).
  apply IH.
  pose proof (@pendingFragments_incl fragments _ _
                (collectSelection_grows Hgrows sel acc)).
  lia.
Qed.

Lemma collectFieldsImpl_deeper depth extra sels acc :
  pendingFragments fragments acc <= depth ->
  collectFieldsImpl (depth + extra) schema fragments runtimeType sels acc
  = collectFieldsImpl depth schema fragments runtimeType sels acc.
Proof.
  revert sels acc. induction depth as [|depth IH]; intros sels acc Hbound.
  - cbn [collectFieldsImpl Nat.add]. destruct extra as [|extra]; [reflexivity|].
    cbn [collectFieldsImpl].
    apply collectSelections_agree with (bound := 0); [| |exact Hbound].
    + intros sels' acc'. apply incl_refl.
    + intros sels' acc' H. lia.
  - cbn [collectFieldsImpl Nat.add].
    apply collectSelections_agree with (bound := Datatypes.S depth); [| |exact Hbound].
    + apply collectFieldsImpl_grows.
    + intros sels' acc' H. apply IH. lia.
Qed.

Lemma pendingFragments_bound acc : pendingFragments fragments acc <= length fragments.
Proof.
  unfold pendingFragments.
  eapply Nat.le_trans; [apply List.filter_length_le|].
  eapply Nat.le_trans; [apply NoDup_incl_length|].
  - apply NoDup_nodup.
  - intros x Hx. apply nodup_In in Hx. exact Hx.
  - rewrite length_map. lia.
Qed.

(** The bound on the nesting of spreads is never what stops collectFields:
    following spreads any deeper collects the same fields. *)
Lemma collectFields_deeper extra sels acc :
  collectFieldsImpl (length fragments + extra) schema fragments runtimeType sels acc
  = collectFields schema fragments runtimeType sels acc.
Proof.
  unfold collectFields. apply collectFieldsImpl_deeper. apply pendingFragments_bound.
Qed.
End FollowingSpreads.


(** ** When the key tells the pairs apart *)

Lemma SafeInteger_eq (n n' : SafeInteger) : integerValue n = integerValue n' -> n = n'.
Proof.
  destruct n as [z Hz], n' as [z' Hz']. cbn. intros <-.
  f_equal. apply UIP_dec. apply Bool.bool_dec.
Qed.

Lemma numberToString_inj (n n' : SafeInteger) :
  numberToString n = numberToString n' -> n = n'.
Proof.
  unfold numberToString. intros H. apply SafeInteger_eq.
  revert H. generalize (integerValue n) (integerValue n'). clear n n'.
  intros n n' H.
  assert (Hparse : forall z, NilZero.int_of_string (NilZero.string_of_int (Z.to_int z))
                             = Some (Z.to_int z)).
  { intros z. apply NilZero.isi; destruct z; cbn; try discriminate;
      intros E; injection E as E; exact (Unsigned.to_uint_nonnil _ E). }
  apply DecimalZ.to_int_inj.
  pose proof (Hparse n) as Hn. rewrite H, Hparse in Hn. congruence.
Qed.

Lemma colon_splits (t t' s s' : string) :
  colonFree t = true -> colonFree t' = true ->
  t ++ ":" ++ s = t' ++ ":" ++ s' -> t = t' /\ s = s'.
Proof.
  revert t'. induction t as [|c t IH]; intros [|c' t'] Ht Ht' H; cbn in *.
  - injection H as ->. auto.
  - injection H as <- _. cbn in Ht'. discriminate Ht'.
  - injection H as -> _. cbn in Ht. discriminate Ht.
  - injection H as -> H.
    apply andb_prop in Ht, Ht'. destruct Ht as [_ Ht], Ht' as [_ Ht'].
    destruct (IH t' Ht Ht' H) as [-> ->]. auto.
Qed.

(** Pairs under colon-free typenames whose ids are of one sort, strings or
    numbers, have distinct keys when they are distinct. *)
Lemma keyOf_inj (e e' : Entity.t) :
  colonFree (Entity.typename e) = true -> colonFree (Entity.typename e') = true ->
  sameSort (Entity.id e) (Entity.id e') = true ->
  keyOf e = keyOf e' -> e = e'.
Proof.
  destruct e as [t i], e' as [t' i']. unfold keyOf, identifierKey. cbn.
  intros Ht Ht' Hsort Hkey.
  destruct (colon_splits _ _ _ _ Ht Ht' Hkey) as [-> Hid].
  destruct i, i'; try discriminate Hsort; cbn in Hid.
  - apply numberToString_inj in Hid. subst. reflexivity.
  - subst. reflexivity.
Qed.

(** * Further properties of the code *)

(** ** sendOperation *)

Lemma sendOperation_run options log :
  sendOperation options log
  = match getOperationAST (document (args (params options)))
                          (operationName (args (params options))) with
    | None => (Returns false, (log ++ ["Unknown operation"])%list)
    | Some (operation, _, _) =>
        if includes (sendOperationsOf options) (operationTypeString operation)
        then (Returns true, log)
        else
          let line :=
            "Operation " ++ operationTypeString operation ++ " named "
            ++ optToString
                 (match getOperationName (params options) with
                  | Returns name => name
                  | Throws _ => None
                  end)
            ++ " is not allowed" in
          (Returns false, (log ++ [line])%list)
    end.
Proof.
  unfold sendOperation, bind, warn, ret, lift, booleanIsUndefined, sendOperationsOf.
  cbn beta iota. unfold getOperation.
  destruct (getOperationAST _ _) as [[[operation name] sels]|] eqn:E; [|reflexivity].
  rewrite operationTypeString_known.
  destruct (includes _ _); cbn [negb]; [reflexivity|].
  destruct (getOperationName_returns (params options)
              (getOperationAST_hasOperationDefinition _ _ E)) as [n ->].
  reflexivity.
Qed.

(** X1. sendOperation returns true exactly when the document's operation
    resolves and its kind is on sendOperations; it then logs nothing, and when
    it returns false it logs exactly one line. *)
Theorem sendOperation_allows_the_listed_kinds (options : UseInngestDataOptions)
    (log : Logger) :
  (valueOf (sendOperation options) log = Returns true
   <-> exists operation name sels,
         getOperationAST (document (args (params options)))
                         (operationName (args (params options)))
         = Some (operation, name, sels)
         /\ In (operationTypeString operation) (sendOperationsOf options))
  /\ (valueOf (sendOperation options) log = Returns true ->
      snd (sendOperation options log) = log)
  /\ (valueOf (sendOperation options) log = Returns false ->
      exists line, snd (sendOperation options log) = (log ++ [line])%list).
Proof.
  unfold valueOf. rewrite sendOperation_run.
  destruct (getOperationAST _ _) as [[[operation name] sels]|].
  - destruct (includes (sendOperationsOf options) (operationTypeString operation)) eqn:E;
      cbn [fst snd].
    + split; [|split].
      * split; [intros _|reflexivity].
        exists operation, name, sels. split; [reflexivity | apply includes_In; exact E].
      * reflexivity.
      * intros H. discriminate H.
    + split; [|split].
      * split; [intros H; discriminate H|].
        intros (o & n & s & Heq & Hin). injection Heq as <- _ _.
        apply includes_In in Hin. congruence.
      * intros H. discriminate H.
      * intros _. eexists. reflexivity.
  - cbn [fst snd]. split; [|split].
    + split; [intros H; discriminate H | intros (o & n & s & Heq & _); discriminate Heq].
    + intros H. discriminate H.
    + intros _. eexists. reflexivity.
Qed.

(** A mutation under an allow-list of queries: refused with its one line. *)
Lemma sendOperation_allows_the_listed_kinds_witness :
  valueOf (sendOperation (queriesAllowed findPosts None None None false false false)) []
  = Returns true
  /\ snd (sendOperation (queriesAllowed findPosts None None None false false false) []) = []
  /\ exists line,
       snd (sendOperation
              (queriesAllowed [OperationDefinition MUTATION (Some "Save") []]
                              None None None false false false) [])
       = [line].
Proof.
  destruct (sendOperation_allows_the_listed_kinds
              (queriesAllowed findPosts None None None false false false) [])
    as (_ & Hsilent & _).
  destruct (sendOperation_allows_the_listed_kinds
              (queriesAllowed [OperationDefinition MUTATION (Some "Save") []]
                              None None None false false false) [])
    as (_ & _ & Hline).
  split; [reflexivity|]. split; [apply Hsilent; reflexivity|].
  apply Hline. reflexivity.
Defined.

(** ** getOperationName and getOperation *)

(** X2. The name getOperationName returns is never the empty string: it is
    undefined or a non-empty name. *)
Theorem getOperationName_is_never_empty (params : OnExecuteEventPayload) (name : string)
    (Hname : getOperationName params = Returns (Some name)) :
  name <> "".
Proof.
  unfold getOperationName in Hname.
  destruct (truthyString (operationName (args params))) eqn:E.
  - injection Hname as Hname. rewrite Hname in E. cbn in E.
    intros ->. discriminate E.
  - destruct (find isOperationDefinition _) as [d|]; [|discriminate Hname].
    destruct (truthyString (definitionName d)) eqn:Ed; [|discriminate Hname].
    injection Hname as Hname. rewrite Hname in Ed. cbn in Ed.
    intros ->. discriminate Ed.
Qed.

Lemma getOperationName_is_never_empty_witness : "FindPosts" <> "".
Proof.
  apply (getOperationName_is_never_empty (executeParams findPosts (Some "")) eq_refl).
Defined.

Lemma getOperationAST_loop_unnamed defs acc operation :
  getOperationAST_loop defs None acc = Some operation ->
  match acc with
  | Some found => found = operation /\ existsb isOperationDefinition defs = false
  | None =>
      find isOperationDefinition defs
      = Some (OperationDefinition (fst (fst operation)) (snd (fst operation))
                                  (snd operation))
  end.
Proof.
  revert acc. induction defs as [|d defs IH]; intros acc H; cbn in H.
  - destruct acc; [injection H as ->; auto | discriminate H].
  - destruct d as [o n s| |].
    + destruct acc; [discriminate H|].
      apply IH in H. destruct H as [<- _]. reflexivity.
    + apply IH in H. destruct acc; exact H.
    + apply IH in H. destruct acc; exact H.
Qed.

Lemma getOperationAST_loop_named defs wanted acc operation :
  getOperationAST_loop defs (Some wanted) acc = Some operation ->
  acc = Some operation \/ snd (fst operation) = Some wanted.
Proof.
  revert acc. induction defs as [|d defs IH]; intros acc H; cbn in H.
  - left. exact H.
  - destruct d as [o n s| |]; [|apply IH; exact H|apply IH; exact H].
    destruct (optEqb n wanted) eqn:E; [|apply IH; exact H].
    injection H as <-. right. cbn. destruct n as [n|]; [|discriminate E].
    cbn in E. apply String.eqb_eq in E. subst. reflexivity.
Qed.

(** X3. The kind and the name reported belong to one operation: when
    getOperationAST resolves an operation and the operationName supplied is
    not the empty string, getOperation is the kind of that operation and
    getOperationName its name (undefined when it has none). *)
Theorem kind_and_name_of_the_resolved_operation (params : OnExecuteEventPayload)
    (operation : OperationTypeNode) (name : option string) (sels : list SelectionNode)
    (Hresolved : getOperationAST (document (args params)) (operationName (args params))
                 = Some (operation, name, sels))
    (Hsupplied : operationName (args params) <> Some "") :
  getOperation params = operationTypeString operation
  /\ getOperationName params = Returns (if truthyString name then name else None).
Proof.
  split; [unfold getOperation; rewrite Hresolved; reflexivity|].
  unfold getOperationName, getOperationAST in *.
  destruct (operationName (args params)) as [wanted|] eqn:E.
  - apply getOperationAST_loop_named in Hresolved.
    destruct Hresolved as [H|H]; [discriminate H|]. cbn in H. subst name.
    assert (Htruthy : truthyString (Some wanted) = true).
    { cbn. destruct (String.eqb wanted "") eqn:Ew; [|reflexivity].
      apply String.eqb_eq in Ew. subst. contradiction Hsupplied. reflexivity. }
    rewrite Htruthy. reflexivity.
  - apply getOperationAST_loop_unnamed in Hresolved. cbn in Hresolved.
    cbn [truthyString]. rewrite Hresolved. cbn [definitionName].
    destruct (truthyString name); reflexivity.
Qed.

(** Of two operations, the one named B is the one reported on. *)
Lemma kind_and_name_of_the_resolved_operation_witness :
  getOperation (executeParams twoOperations (Some "B")) = "query"
  /\ getOperationName (executeParams twoOperations (Some "B")) = Returns (Some "B").
Proof.
  apply (kind_and_name_of_the_resolved_operation
           (executeParams twoOperations (Some "B"))
           (operation := QUERY) (name := Some "B") (sels := [Field None "test" []])).
  - reflexivity.
  - discriminate.
Defined.

(** ** shouldSendEvent: failure, rules 1 and 3, the allow overrides, the log *)

Lemma nameResolves_false_throws params :
  nameResolves params = false ->
  getOperationName params
  = Throws (TypeError "Cannot read properties of undefined (reading 'name')").
Proof.
  unfold nameResolves, hasOperationDefinition, getOperationName. intros H.
  apply orb_false_elim in H. destruct H as [-> Hnone].
  destruct (find isOperationDefinition _) as [d|] eqn:E; [|reflexivity].
  apply find_some in E. destruct E as [Hin Hd].
  assert (Hex : existsb isOperationDefinition (definitions (document (args params))) = true)
    by (apply existsb_exists; eauto).
  congruence.
Qed.

Lemma nameResolves_false_unknown params :
  nameResolves params = false ->
  getOperationAST (document (args params)) (operationName (args params)) = None.
Proof.
  intros H. destruct (getOperationAST _ _) as [op|] eqn:E; [|reflexivity].
  apply getOperationAST_hasOperationDefinition in E.
  unfold nameResolves in H. rewrite E, orb_true_r in H. discriminate H.
Qed.

(** X4. shouldSendEvent fails exactly when the operation name does not
    resolve (no non-empty operationName and no operation definition in the
    document); it has then logged 'Unknown operation' and throws the
    TypeError of getOperationName, whatever the configuration is. *)
Theorem shouldSendEvent_throws_exactly_without_operation
    (options : UseInngestDataOptions) (log : Logger) :
  ((exists e, valueOf (shouldSendEvent options) log = Throws e)
   <-> nameResolves (params options) = false)
  /\ (nameResolves (params options) = false ->
      shouldSendEvent options log
      = (Throws (TypeError "Cannot read properties of undefined (reading 'name')"),
         (log ++ ["Unknown operation"])%list)).
Proof.
  assert (Hthrow : nameResolves (params options) = false ->
            shouldSendEvent options log
            = (Throws (TypeError "Cannot read properties of undefined (reading 'name')"),
               (log ++ ["Unknown operation"])%list)).
  { intros H. unfold shouldSendEvent, allowOperation, bind at 1.
    rewrite sendOperation_run, (nameResolves_false_unknown _ H).
    unfold bind at 1, lift, isAnonymousOperation.
    rewrite (nameResolves_false_throws _ H). reflexivity. }
  split; [|exact Hthrow]. split.
  - intros [e He]. destruct (nameResolves (params options)) eqn:E; [|reflexivity].
    destruct (nameResolves_anonymous _ E) as [anon Hanon].
    rewrite (shouldSendEvent_value options log Hanon) in He. discriminate He.
  - intros H. eexists. unfold valueOf. rewrite (Hthrow H). reflexivity.
Qed.

(** The fragment-only document throws even though every send flag is set. *)
Lemma shouldSendEvent_throws_exactly_without_operation_witness :
  shouldSendEvent (queriesAllowed fragmentOnly None None None true true true) []
  = (Throws (TypeError "Cannot read properties of undefined (reading 'name')"),
     ["Unknown operation"]).
Proof.
  apply (proj2 (shouldSendEvent_throws_exactly_without_operation
                  (queriesAllowed fragmentOnly None None None true true true) [])).
  reflexivity.
Defined.

(** X5. Rules 1 and 3: once the operation name resolves, an operation whose
    kind is not allowed, and a document that touches a denied schema
    coordinate, are not sent, whatever the send flags are. *)
Theorem not_allowed_or_denied_coordinate_is_never_sent
    (options : UseInngestDataOptions) (log : Logger)
    (Hname : nameResolves (params options) = true)
    (Hrule : valueOf (sendOperation options) log = Returns false
             \/ denySchemaCoordinate options = true) :
  valueOf (shouldSendEvent options) log = Returns false.
Proof.
  destruct (nameResolves_anonymous _ Hname) as [anon Hanon].
  rewrite (shouldSendEvent_value options log Hanon). unfold cascade.
  destruct Hrule as [H|H].
  - rewrite sendOperation_value in H. injection H as ->. reflexivity.
  - rewrite H. destruct (operationAllowed options), (denyType options); reflexivity.
Qed.

(** The coordinate Query.posts denied, every send flag set. *)
Lemma not_allowed_or_denied_coordinate_is_never_sent_witness :
  valueOf (shouldSendEvent
             (queriesAllowed findPosts None oneError (denyCoordinates ["Query.posts"])
                             true true true)) []
  = Returns false.
Proof.
  apply (not_allowed_or_denied_coordinate_is_never_sent
           (queriesAllowed findPosts None oneError (denyCoordinates ["Query.posts"])
                           true true true) []);
    [reflexivity | right; reflexivity].
Defined.

(** X6. Rules 4 to 6 do not wait for one another: for an allowed operation
    that touches nothing denied, any one of the three overrides that applies
    (anonymous with sendAnonymousOperations, introspection with
    sendIntrospection, errors with sendErrors) gets the event sent, whatever
    the other two signals and flags are; so errors with sendErrors send an
    introspection query even when sendIntrospection is off. *)
Theorem any_allow_override_sends (options : UseInngestDataOptions) (log : Logger)
    (Hallowed : valueOf (allowOperation options) log = Returns true)
    (Htype : denyType options = false)
    (Hcoordinate : denySchemaCoordinate options = false)
    (Hoverride :
       (isAnonymousOperation (params options) = Returns true
        /\ truthyFlag (sendAnonymousOperations options) = true)
       \/ (isIntrospectionQuery (params options) = true
           /\ truthyFlag (sendIntrospection options) = true)
       \/ (hasErrors options = true /\ truthyFlag (sendErrors options) = true)) :
  valueOf (shouldSendEvent options) log = Returns true.
Proof.
  apply allowOperation_allowed in Hallowed.
  destruct (isAnonymousOperation_returns _
              (operationAllowed_hasOperationDefinition _ Hallowed)) as [anon Hanon].
  rewrite (shouldSendEvent_value options log Hanon). unfold cascade.
  rewrite Hallowed, Htype, Hcoordinate. cbn [negb].
  destruct Hoverride as [[Ha Hf] | [[Hi Hf] | [He Hf]]].
  - rewrite Hanon in Ha. injection Ha as ->. rewrite Hf. reflexivity.
  - rewrite Hi, Hf.
    destruct (anon && truthyFlag (sendAnonymousOperations options)); reflexivity.
  - rewrite He, Hf.
    destruct (anon && truthyFlag (sendAnonymousOperations options)),
      (isIntrospectionQuery (params options) && truthyFlag (sendIntrospection options));
      reflexivity.
Qed.

(** An introspection query with an error, sendIntrospection off, sendErrors
    on: sent. *)
Lemma any_allow_override_sends_witness :
  isIntrospectionQuery (executeParams introspectionFirst None) = true
  /\ valueOf (shouldSendEvent
                (queriesAllowed introspectionFirst None oneError None false false true)) []
     = Returns true.
Proof.
  split; [reflexivity|].
  apply (any_allow_override_sends
           (queriesAllowed introspectionFirst None oneError None false false true) []);
    try reflexivity.
  right. right. split; reflexivity.
Defined.

(** X7. Setting send flags only adds events: if an input is sent under some
    flags, it is sent under any flags that are set wherever those were. *)
Theorem send_flags_only_add (options : UseInngestDataOptions) (log : Logger)
    (anonymous introspection errs anonymous' introspection' errs' : option bool)
    (Hanonymous : truthyFlag anonymous = true -> truthyFlag anonymous' = true)
    (Hintrospection : truthyFlag introspection = true -> truthyFlag introspection' = true)
    (Herrs : truthyFlag errs = true -> truthyFlag errs' = true)
    (Hsent : valueOf (shouldSendEvent (withSendFlags options anonymous introspection errs))
                     log = Returns true) :
  valueOf (shouldSendEvent (withSendFlags options anonymous' introspection' errs')) log
  = Returns true.
Proof.
  destruct (isAnonymousOperation (params options)) as [anon|e] eqn:Hanon.
  - rewrite (shouldSendEvent_value (withSendFlags options anonymous introspection errs)
               log Hanon) in Hsent.
    rewrite (shouldSendEvent_value (withSendFlags options anonymous' introspection' errs')
               log Hanon).
    change (operationAllowed (withSendFlags options anonymous introspection errs))
      with (operationAllowed options) in Hsent.
    change (operationAllowed (withSendFlags options anonymous' introspection' errs'))
      with (operationAllowed options).
    change (denyType (withSendFlags options anonymous introspection errs))
      with (denyType options) in Hsent.
    change (denyType (withSendFlags options anonymous' introspection' errs'))
      with (denyType options).
    change (denySchemaCoordinate (withSendFlags options anonymous introspection errs))
      with (denySchemaCoordinate options) in Hsent.
    change (denySchemaCoordinate (withSendFlags options anonymous' introspection' errs'))
      with (denySchemaCoordinate options).
    cbn [withSendFlags params sendAnonymousOperations sendIntrospection sendErrors
         hasErrors result] in *.
    change (hasErrors (withSendFlags options anonymous introspection errs))
      with (hasErrors options) in Hsent.
    change (hasErrors (withSendFlags options anonymous' introspection' errs'))
      with (hasErrors options).
    unfold cascade in *.
    destruct (operationAllowed options), (denyType options),
      (denySchemaCoordinate options), anon, (isIntrospectionQuery (params options)),
      (hasErrors options), (truthyFlag anonymous), (truthyFlag introspection),
      (truthyFlag errs);
      cbn in Hsent; try discriminate Hsent;
      try rewrite (Hanonymous eq_refl); try rewrite (Hintrospection eq_refl);
      try rewrite (Herrs eq_refl); cbn;
      try reflexivity;
      destruct (truthyFlag anonymous'), (truthyFlag introspection'), (truthyFlag errs');
      reflexivity.
  - rewrite (shouldSendEvent_throws (withSendFlags options anonymous introspection errs)
               log Hanon) in Hsent.
    discriminate Hsent.
Qed.

(** A query with an error, sent under sendErrors, stays sent when the other
    two flags are set as well. *)
Lemma send_flags_only_add_witness :
  valueOf (shouldSendEvent
             (withSendFlags (queriesAllowed findPosts None oneError None false false false)
                            (Some true) (Some true) (Some true))) []
  = Returns true.
Proof.
  apply (send_flags_only_add
           (queriesAllowed findPosts None oneError None false false false) []
           None (Some false) (Some true) (Some true) (Some true) (Some true));
    try reflexivity; intros H; reflexivity.
Defined.

Lemma prefix_append (a b : string) : prefix a (a ++ b) = true.
Proof.
  induction a as [|c a IH]; cbn.
  - destruct b; reflexivity.
  - destruct (ascii_dec c c) as [_|Hne]; [exact IH | contradiction Hne; reflexivity].
Qed.

Lemma append_assoc' (a b c : string) : a ++ (b ++ c) = (a ++ b) ++ c.
Proof. induction a as [|x a IH]; cbn; [reflexivity | rewrite IH; reflexivity]. Qed.

Lemma prefix_opening (a b c : string) : prefix (a ++ b) (a ++ b ++ c) = true.
Proof. rewrite append_assoc'. apply prefix_append. Qed.

(** X8. Once the operation name resolves, shouldSendEvent adds to what
    sendOperation logged exactly one line, and the line tells the decision: it
    opens with 'Sending event' and the event name when true is returned, with
    'Blocking event' and the event name when false is. *)
Theorem shouldSendEvent_logs_its_decision (options : UseInngestDataOptions)
    (log : Logger)
    (Hname : nameResolves (params options) = true) :
  exists send line,
    shouldSendEvent options log
    = (Returns send, (snd (sendOperation options log) ++ [line])%list)
    /\ prefix (rationaleOpening send (eventName options)) line = true.
Proof.
  destruct (nameResolves_anonymous _ Hname) as [anon Hanon].
  pose proof (sendOperation_value options log) as Hvalue. unfold valueOf in Hvalue.
  unfold shouldSendEvent, allowOperation, bind at 1.
  destruct (sendOperation options log) as [[allowed|e] log1]; cbn [fst snd] in *;
    [|discriminate Hvalue].
  unfold bind at 1, lift. rewrite Hanon.
  destruct allowed, (denyType options), (denySchemaCoordinate options), anon,
    (isIntrospectionQuery (params options)), (hasErrors options),
    (truthyFlag (sendAnonymousOperations options)),
    (truthyFlag (sendIntrospection options)), (truthyFlag (sendErrors options));
    cbn [negb andb];
    (eexists; eexists; split;
     [ reflexivity | unfold rationaleOpening; apply prefix_opening ]).
Qed.

(** [query FindPosts { posts { id } }] with one error and every flag off. *)
Lemma shouldSendEvent_logs_its_decision_witness :
  exists send line,
    shouldSendEvent (queriesAllowed findPosts None oneError None false false false) []
    = (Returns send, [line])
    /\ prefix (rationaleOpening send "graphql-test/event") line = true.
Proof.
  apply (shouldSendEvent_logs_its_decision
           (queriesAllowed findPosts None oneError None false false false) []).
  reflexivity.
Defined.

(** ** The three walkers *)

Lemma isIntrospectionQuery_existsb params :
  isIntrospectionQuery params
  = existsb resolvesToIntrospectionType
            (fieldsOfDocument (schema (args params)) (document (args params))).
Proof.
  exact (proj1 (flag_walker (schema (args params)) isIntrospectionQuery_Field
                  resolvesToIntrospectionType (document (args params))
                  isIntrospectionQuery_Field_flagWhen)).
Qed.

Lemma denyType_existsb options :
  denyType options
  = existsb (resolvesToDeniedType (typeDenyListOf options))
            (fieldsOfDocument (schema (args (params options)))
                              (document (args (params options)))).
Proof.
  exact (proj1 (flag_walker (schema (args (params options)))
                  (denyType_Field (typeDenyListOf options))
                  (resolvesToDeniedType (typeDenyListOf options))
                  (document (args (params options)))
                  (denyType_Field_flagWhen (typeDenyListOf options)))).
Qed.

Lemma denySchemaCoordinate_existsb options :
  denySchemaCoordinate options
  = existsb (onDeniedCoordinate (schemaCoordinateDenyListOf options))
            (fieldsOfDocument (schema (args (params options)))
                              (document (args (params options)))).
Proof.
  exact (proj1 (flag_walker (schema (args (params options)))
                  (denySchemaCoordinate_Field (schemaCoordinateDenyListOf options))
                  (onDeniedCoordinate (schemaCoordinateDenyListOf options))
                  (document (args (params options)))
                  (denySchemaCoordinate_Field_flagWhen
                     (schemaCoordinateDenyListOf options)))).
Qed.

Lemma throughFirst_none {A : Type} (p : A -> bool) (l : list A) :
  existsb p l = false -> throughFirst p l = l.
Proof.
  induction l as [|x l IH]; cbn; [reflexivity|].
  destruct (p x); cbn; [discriminate|]. intros H. rewrite (IH H). reflexivity.
Qed.

(** X9. denyType is true exactly when some field of the document has a
    resolved named output type on the types denylist; its callback runs on the
    fields in document order through the first such field and on none after
    it; and with the denylist, or its types, absent it is false for every
    document. *)
Theorem denyType_first_denied_field (options : UseInngestDataOptions) :
  let visited := fieldsOfDocument (schema (args (params options)))
                                  (document (args (params options))) in
  (denyType options = true
   <-> exists v t, In v visited /\ fieldType v = Some t
                   /\ In (getNamedType t) (typeDenyListOf options))
  /\ denyType_calls options
     = throughFirst (resolvesToDeniedType (typeDenyListOf options)) visited
  /\ ((forall d, denylist options = Some d -> Denylist.types d = None) ->
      denyType options = false).
Proof.
  intros visited. split; [apply denyType_touches|]. split.
  - exact (proj2 (flag_walker (schema (args (params options)))
                    (denyType_Field (typeDenyListOf options))
                    (resolvesToDeniedType (typeDenyListOf options))
                    (document (args (params options)))
                    (denyType_Field_flagWhen (typeDenyListOf options)))).
  - intros Habsent. rewrite denyType_existsb. fold visited.
    assert (Hnil : typeDenyListOf options = []).
    { unfold typeDenyListOf. destruct (denylist options) as [d|]; [|reflexivity].
      rewrite (Habsent d eq_refl). reflexivity. }
    rewrite Hnil. induction visited as [|v visited IH]; [reflexivity|].
    cbn [existsb]. rewrite IH. unfold resolvesToDeniedType.
    destruct (fieldType v); reflexivity.
Qed.

(** [query { post { id title } }] with ID denied: the callback stops at id,
    the second of three fields; without denylist nothing is denied. *)
Lemma denyType_first_denied_field_witness :
  denyType (queriesAllowed anonymousPost None None (denyTypes ["ID"]) false false false)
  = true
  /\ length (denyType_calls
               (queriesAllowed anonymousPost None None (denyTypes ["ID"])
                               false false false)) = 2
  /\ denyType (noAllowList anonymousPost) = false.
Proof.
  destruct (denyType_first_denied_field
              (queriesAllowed anonymousPost None None (denyTypes ["ID"])
                              false false false)) as (_ & Hcalls & _).
  split; [reflexivity|]. split; [rewrite Hcalls; reflexivity|].
  apply (proj2 (proj2 (denyType_first_denied_field (noAllowList anonymousPost)))).
  intros d H. discriminate H.
Defined.

(** X10. The callback of denySchemaCoordinate runs on the fields in document
    order through the first one on a denied coordinate and on none after it;
    when no coordinate is denied it has run on every field. *)
Theorem denySchemaCoordinate_stops_at_first (options : UseInngestDataOptions) :
  let visited := fieldsOfDocument (schema (args (params options)))
                                  (document (args (params options))) in
  denySchemaCoordinate_calls options
  = throughFirst (onDeniedCoordinate (schemaCoordinateDenyListOf options)) visited
  /\ (exists rest, visited = (denySchemaCoordinate_calls options ++ rest)%list)
  /\ (forall v, In v (removelast (denySchemaCoordinate_calls options)) ->
                onDeniedCoordinate (schemaCoordinateDenyListOf options) v = false)
  /\ (denySchemaCoordinate options = false ->
      denySchemaCoordinate_calls options = visited).
Proof.
  intros visited.
  assert (Hcalls : denySchemaCoordinate_calls options
                   = throughFirst (onDeniedCoordinate (schemaCoordinateDenyListOf options))
                                  visited).
  { exact (proj2 (flag_walker (schema (args (params options)))
                    (denySchemaCoordinate_Field (schemaCoordinateDenyListOf options))
                    (onDeniedCoordinate (schemaCoordinateDenyListOf options))
                    (document (args (params options)))
                    (denySchemaCoordinate_Field_flagWhen
                       (schemaCoordinateDenyListOf options)))). }
  rewrite Hcalls. split; [reflexivity|].
  split; [apply throughFirst_prefix|]. split; [apply throughFirst_before|].
  rewrite denySchemaCoordinate_existsb. apply throughFirst_none.
Qed.

(** With Query.post denied the callback runs on one field of three; with
    nothing denied on all three. *)
Lemma denySchemaCoordinate_stops_at_first_witness :
  length (denySchemaCoordinate_calls
            (queriesAllowed anonymousPost None None (denyCoordinates ["Query.post"])
                            false false false)) = 1
  /\ length (denySchemaCoordinate_calls (noAllowList anonymousPost)) = 3.
Proof.
  destruct (denySchemaCoordinate_stops_at_first
              (queriesAllowed anonymousPost None None (denyCoordinates ["Query.post"])
                              false false false)) as (Hcalls & _).
  destruct (denySchemaCoordinate_stops_at_first (noAllowList anonymousPost))
    as (_ & _ & _ & Hall).
  split; [rewrite Hcalls; reflexivity|].
  rewrite (Hall eq_refl). reflexivity.
Defined.

(** X11. The three walkers go through the document definition by definition:
    on the definitions [defs1 ++ defs2] each of them is true exactly when it
    is true on [defs1] alone or on [defs2] alone. So a fragment definition
    that no operation spreads, and an operation other than the one executed,
    count like the executed operation. *)
Theorem walkers_go_definition_by_definition (options : UseInngestDataOptions)
    (defs1 defs2 : list DefinitionNode) :
  isIntrospectionQuery (paramsOver (params options) (defs1 ++ defs2))
  = isIntrospectionQuery (paramsOver (params options) defs1)
    || isIntrospectionQuery (paramsOver (params options) defs2)
  /\ denyType (withDefinitions options (defs1 ++ defs2))
     = denyType (withDefinitions options defs1)
       || denyType (withDefinitions options defs2)
  /\ denySchemaCoordinate (withDefinitions options (defs1 ++ defs2))
     = denySchemaCoordinate (withDefinitions options defs1)
       || denySchemaCoordinate (withDefinitions options defs2).
Proof.
  rewrite !isIntrospectionQuery_existsb, !denyType_existsb, !denySchemaCoordinate_existsb.
  unfold fieldsOfDocument. cbn [withDefinitions paramsOver params args schema document
                                definitions].
  rewrite !flat_map_app, !existsb_app. auto.
Qed.

(** X12. Denying the eight introspection types by name makes denyType the
    same test as isIntrospectionQuery. *)
Theorem introspection_types_as_a_denylist (options : UseInngestDataOptions)
    (Hdeny : typeDenyListOf options = map fst introspectionTypes) :
  denyType options = isIntrospectionQuery (params options).
Proof.
  rewrite denyType_existsb, isIntrospectionQuery_existsb, Hdeny.
  induction (fieldsOfDocument _ _) as [|v visited IH]; [reflexivity|].
  cbn [existsb]. rewrite IH.
  unfold resolvesToDeniedType, resolvesToIntrospectionType.
  destruct (fieldType v); reflexivity.
Qed.

Lemma introspection_types_as_a_denylist_witness :
  denyType (queriesAllowed introspectionFirst None None
                           (denyTypes (map fst introspectionTypes)) false false false)
  = isIntrospectionQuery (executeParams introspectionFirst None).
Proof.
  apply (introspection_types_as_a_denylist
           (queriesAllowed introspectionFirst None None
                           (denyTypes (map fst introspectionTypes)) false false false)).
  reflexivity.
Defined.

Lemma existsb_weaken {A : Type} (p q : A -> bool) (l : list A) :
  (forall x, p x = true -> q x = true) -> existsb p l = true -> existsb q l = true.
Proof.
  intros Hpq H. apply existsb_exists in H. destruct H as (x & Hin & Hp).
  apply existsb_exists. exists x. auto.
Qed.

(** X13. The denylists only add denials: a document denied under one
    denylist is denied under every denylist that holds at least the same
    types, respectively the same schema coordinates; order and repetition in
    the lists play no part. *)
Theorem denylists_only_add (options : UseInngestDataOptions)
    (deny deny' : option Denylist.t)
    (Htypes : incl (typeDenyListOf (withDenylist options deny))
                   (typeDenyListOf (withDenylist options deny')))
    (Hcoordinates : incl (schemaCoordinateDenyListOf (withDenylist options deny))
                         (schemaCoordinateDenyListOf (withDenylist options deny'))) :
  (denyType (withDenylist options deny) = true ->
   denyType (withDenylist options deny') = true)
  /\ (denySchemaCoordinate (withDenylist options deny) = true ->
      denySchemaCoordinate (withDenylist options deny') = true).
Proof.
  rewrite !denyType_existsb, !denySchemaCoordinate_existsb.
  cbn [withDenylist params]. split; apply existsb_weaken; intros v.
  - unfold resolvesToDeniedType. destruct (fieldType v); [|auto].
    rewrite !includes_In. apply Htypes.
  - unfold onDeniedCoordinate. destruct (parentType v); [|auto].
    rewrite !includes_In. apply Hcoordinates.
Qed.

(** Post denied, then Post and User, in another order and twice. *)
Lemma denylists_only_add_witness :
  denyType (withDenylist (noAllowList findPosts) (denyTypes ["User"; "Post"; "Post"]))
  = true.
Proof.
  apply (proj1 (denylists_only_add (noAllowList findPosts)
                  (denyTypes ["Post"]) (denyTypes ["User"; "Post"; "Post"])
                  ltac:(intros x [<-|[]]; cbn; auto)
                  ltac:(intros x []))).
  reflexivity.
Defined.

Lemma dotFree_dot (parent rest : string) :
  dotFree (parent ++ String "." rest) = false.
Proof.
  induction parent as [|c parent IH]; cbn; [reflexivity|].
  rewrite IH. apply andb_false_r.
Qed.

Lemma dotFree_coordinate (parent field : string) :
  dotFree (parent ++ "." ++ field) = false.
Proof. exact (dotFree_dot parent field). Qed.

(** X14. An entry of schemaCoordinates without a dot, a bare type name or a
    bare field name, never matches: under a list of such entries
    denySchemaCoordinate is false for every document. *)
Theorem coordinates_without_dot_never_match (options : UseInngestDataOptions)
    (Hentries : forall entry, In entry (schemaCoordinateDenyListOf options) ->
                              dotFree entry = true) :
  denySchemaCoordinate options = false.
Proof.
  rewrite denySchemaCoordinate_existsb.
  induction (fieldsOfDocument _ _) as [|v visited IH]; [reflexivity|].
  cbn [existsb]. rewrite IH, orb_false_r. unfold onDeniedCoordinate.
  destruct (parentType v) as [parent|]; [|reflexivity].
  destruct (includes _ _) eqn:E; [|reflexivity].
  apply includes_In in E. apply Hentries in E.
  rewrite dotFree_coordinate in E. discriminate E.
Qed.

(** The type name Post and the field name id on schemaCoordinates deny
    nothing of [query FindPosts { posts { id } }]. *)
Lemma coordinates_without_dot_never_match_witness :
  denySchemaCoordinate
    (queriesAllowed findPosts None None (denyCoordinates ["Post"; "id"; "posts"])
                    false false false)
  = false.
Proof.
  apply (coordinates_without_dot_never_match
           (queriesAllowed findPosts None None (denyCoordinates ["Post"; "id"; "posts"])
                           false false false)).
  intros entry [<-|[<-|[<-|[]]]]; reflexivity.
Defined.

(** ** buildTypeIdentifiers: order, the id kept, the types *)

Lemma firstOccurrences_snoc (l : list string) (x : string) :
  firstOccurrences (l ++ [x]) = Set_add (firstOccurrences l) x.
Proof.
  unfold firstOccurrences, Set_add. rewrite rev_app_distr. cbn [rev app nodup].
  destruct (in_dec string_dec x (rev l)) as [Hin|Hnotin].
  - assert (H : includes (rev (nodup string_dec (rev l))) x = true).
    { apply includes_In. rewrite <- in_rev. apply nodup_In. exact Hin. }
    rewrite H. reflexivity.
  - assert (H : includes (rev (nodup string_dec (rev l))) x = false).
    { apply includes_false_not_In. intros Hin. apply Hnotin.
      rewrite <- in_rev in Hin. apply nodup_In in Hin. exact Hin. }
    rewrite H. reflexivity.
Qed.

Lemma Map_set_keys_add {V : Type} (m : list (string * V)) key value :
  map fst (Map_set m key value) = Set_add (map fst m) key.
Proof.
  unfold Set_add. induction m as [|[k v] m IH]; cbn; [reflexivity|].
  rewrite (String.eqb_sym key k).
  destruct (String.eqb k key); cbn; [reflexivity|].
  rewrite IH. unfold includes. destruct (existsb (String.eqb key) (map fst m)); reflexivity.
Qed.

Lemma recorded_order (seen : list Entity.t) :
  let c := fold_left recordEntity seen noCollections in
  map fst (identifierSet c) = firstOccurrences (map keyOf seen)
  /\ typeSet c = firstOccurrences (map Entity.typename seen).
Proof.
  induction seen as [|e seen IH] using rev_ind; cbn zeta; [split; reflexivity|].
  cbn zeta in IH. destruct IH as [Hkeys Htypes].
  rewrite fold_left_app, !map_app. cbn [fold_left map].
  rewrite !firstOccurrences_snoc, <- Hkeys, <- Htypes.
  unfold recordEntity, recordIdentifier. cbn [identifierSet typeSet].
  split; [apply Map_set_keys_add | reflexivity].
Qed.

(** X15. The identifiers come in the order in which their keys were first
    come across in the walk, and the types in the order in which the typenames
    were. *)
Theorem identifiers_in_order_of_first_discovery (options : UseInngestDataOptions)
    (seen : list Entity.t)
    (Hseen : observedPairs options = Returns seen) :
  exists r,
    buildTypeIdentifiers options = Returns r
    /\ map keyOf (identifiers r) = firstOccurrences (map keyOf seen)
    /\ types r = firstOccurrences (map Entity.typename seen).
Proof.
  rewrite buildTypeIdentifiers_observedPairs, Hseen. cbn [bindO].
  destruct (recorded_collections seen) as (_ & Hentries & _).
  destruct (recorded_order seen) as [Hkeys Htypes].
  eexists. split; [reflexivity|]. cbn [identifiers types].
  split; [|exact Htypes].
  rewrite <- Hkeys. apply entries_keys. intros k e Hin. apply (Hentries k e Hin).
Qed.

(** Posts 7, 5, 7, 11: the identifiers are those of 7, 5 and 11, in that
    order. *)
Lemma identifiers_in_order_of_first_discovery_witness :
  exists r,
    buildTypeIdentifiers
      (extractFrom findPosts
         (resultWithPosts [seven; five; seven; eleven]))
    = Returns r
    /\ map keyOf (identifiers r) = ["Post:7"; "Post:5"; "Post:11"]
    /\ types r = ["Post"].
Proof.
  destruct (identifiers_in_order_of_first_discovery
              (extractFrom findPosts
                 (resultWithPosts [seven; five; seven; eleven]))
              (seen := map postEntity [seven; five; seven; eleven])
              eq_refl) as (r & Hr & Hkeys & Htypes).
  exists r. split; [exact Hr|]. split; [rewrite Hkeys | rewrite Htypes]; reflexivity.
Defined.

Lemma Map_set_In_or {V : Type} (m : list (string * V)) key value k v :
  NoDup (map fst m) ->
  In (k, v) (Map_set m key value) ->
  (k = key /\ v = value) \/ (k <> key /\ In (k, v) m).
Proof.
  induction m as [|[k0 v0] m IH]; cbn; intros Hnd Hin.
  - destruct Hin as [H|[]]. injection H as <- <-. auto.
  - inversion Hnd as [|? ? Hnotin Hrest]; subst.
    destruct (String.eqb k0 key) eqn:E.
    + apply String.eqb_eq in E. subst k0. destruct Hin as [H|H].
      * injection H as <- <-. auto.
      * right. split; [|auto]. intros ->. apply Hnotin.
        apply (in_map fst) in H. exact H.
    + apply String.eqb_neq in E. destruct Hin as [H|H].
      * injection H as <- <-. auto.
      * destruct (IH Hrest H) as [?|[? ?]]; auto.
Qed.

Lemma lastWithKey_snoc key seen e :
  lastWithKey key (seen ++ [e])
  = if String.eqb (keyOf e) key then Some e else lastWithKey key seen.
Proof. unfold lastWithKey. rewrite rev_app_distr. reflexivity. Qed.

Lemma recorded_last (seen : list Entity.t) :
  forall k e, In (k, e) (identifierSet (fold_left recordEntity seen noCollections)) ->
              lastWithKey k seen = Some e.
Proof.
  induction seen as [|e0 seen IH] using rev_ind; intros k e Hin; [destruct Hin|].
  rewrite fold_left_app in Hin. cbn [fold_left] in Hin.
  unfold recordEntity at 1, recordIdentifier in Hin. cbn [identifierSet] in Hin.
  fold (keyOf e0) in Hin.
  apply Map_set_In_or in Hin; [|apply (recorded_collections seen)].
  rewrite lastWithKey_snoc. destruct Hin as [[-> He] | [Hk Hin]].
  - rewrite String.eqb_refl. destruct e0. cbn in He. subst e. reflexivity.
  - apply not_eq_sym in Hk. apply String.eqb_neq in Hk. rewrite Hk.
    apply IH. exact Hin.
Qed.

(** X16. When pairs with one key recur with different ids, the
    EntityIdentifier of the key carries the id of the pair come across last:
    every identifier returned is the last observed pair with its key. *)
Theorem identifier_is_the_last_pair_with_its_key (options : UseInngestDataOptions)
    (seen : list Entity.t)
    (Hseen : observedPairs options = Returns seen) :
  exists r,
    buildTypeIdentifiers options = Returns r
    /\ forall e, In e (identifiers r) -> lastWithKey (keyOf e) seen = Some e.
Proof.
  rewrite buildTypeIdentifiers_observedPairs, Hseen. cbn [bindO].
  eexists. split; [reflexivity|]. cbn [identifiers].
  intros e Hin. apply in_map_iff in Hin. destruct Hin as ([k e'] & Heq & Hin).
  cbn in Heq. subst e'.
  destruct (recorded_collections seen) as (_ & Hentries & _).
  destruct (Hentries k e Hin) as [-> _].
  apply recorded_last. exact Hin.
Qed.

(** Posts '5', 7 and 5: the one identifier of the key Post:5 comes first and
    carries the number 5, seen last. *)
Lemma identifier_is_the_last_pair_with_its_key_witness :
  exists r,
    buildTypeIdentifiers
      (extractFrom findPosts (resultWithPosts [JsString "5"; seven; five]))
    = Returns r
    /\ identifiers r = [postEntity (five); postEntity (seven)]
    /\ lastWithKey "Post:5" (map postEntity [JsString "5"; seven; five])
       = Some (postEntity (five)).
Proof.
  destruct (identifier_is_the_last_pair_with_its_key
              (extractFrom findPosts
                 (resultWithPosts [JsString "5"; seven; five]))
              (seen := map postEntity [JsString "5"; seven; five])
              eq_refl) as (r & Hr & Hlast).
  exists r. split; [exact Hr|].
  assert (Hids : identifiers r = [postEntity (five); postEntity (seven)]).
  { cbv in Hr. injection Hr as <-. reflexivity. }
  split; [exact Hids|].
  apply (Hlast (postEntity (five))). rewrite Hids. left. reflexivity.
Defined.

Lemma keyOf_typename (e e' : Entity.t) :
  colonFree (Entity.typename e) = true -> colonFree (Entity.typename e') = true ->
  keyOf e = keyOf e' -> Entity.typename e = Entity.typename e'.
Proof.
  destruct e as [t i], e' as [t' i']. unfold keyOf, identifierKey. cbn.
  intros Ht Ht' Hkey. exact (proj1 (colon_splits _ _ _ _ Ht Ht' Hkey)).
Qed.

(** X17. When the typenames come across have no colon, as GraphQL names have
    none, the types returned are exactly the typenames of the identifiers
    returned, and there are no more types than identifiers and no more
    identifiers than pairs come across. *)
Theorem types_are_the_typenames_of_the_identifiers (options : UseInngestDataOptions)
    (seen : list Entity.t)
    (Hseen : observedPairs options = Returns seen)
    (Hnames : forall e, In e seen -> colonFree (Entity.typename e) = true) :
  exists r,
    buildTypeIdentifiers options = Returns r
    /\ (forall t, In t (types r)
                  <-> exists e, In e (identifiers r) /\ Entity.typename e = t)
    /\ length (types r) <= length (identifiers r)
    /\ length (identifiers r) <= length seen.
Proof.
  rewrite buildTypeIdentifiers_observedPairs, Hseen. cbn [bindO].
  destruct (recorded_collections seen) as (Hkeys & Hentries & Hpresent & Htypes & Hmember).
  set (c := fold_left recordEntity seen noCollections) in *.
  eexists. split; [reflexivity|]. cbn [identifiers types].
  assert (Hsub : forall e, In e (map snd (identifierSet c)) -> In e seen).
  { intros e Hin. apply in_map_iff in Hin. destruct Hin as ([k e'] & Heq & Hin).
    cbn in Heq. subst e'. apply (Hentries k e Hin). }
  assert (Hiff : forall t, In t (typeSet c)
                 <-> exists e, In e (map snd (identifierSet c)) /\ Entity.typename e = t).
  { intros t. rewrite Hmember. split.
    - intros (e & Hin & Ht). pose proof (Hpresent e Hin) as Hkey.
      apply in_map_iff in Hkey. destruct Hkey as ([k e'] & Heq & Hin').
      cbn in Heq. subst k. destruct (Hentries _ _ Hin') as [Hk Hs].
      exists e'. split; [apply in_map_iff; exists (keyOf e, e'); auto|].
      rewrite <- Ht. symmetry.
      apply keyOf_typename; auto.
    - intros (e & Hin & Ht). exists e. split; [apply Hsub; exact Hin | exact Ht]. }
  split; [exact Hiff|]. split.
  - rewrite <- (length_map Entity.typename (map snd (identifierSet c))).
    apply NoDup_incl_length; [exact Htypes|].
    intros t Ht. apply Hiff in Ht. destruct Ht as (e & Hin & <-).
    apply in_map. exact Hin.
  - apply NoDup_incl_length; [|exact Hsub].
    apply (NoDup_map_back keyOf).
    rewrite (entries_keys (identifierSet c))
      by (intros k e Hin; apply (Hentries k e Hin)).
    exact Hkeys.
Qed.

Lemma types_are_the_typenames_of_the_identifiers_witness :
  exists r,
    buildTypeIdentifiers
      (extractFrom findPosts (resultWithPosts [five; seven; five]))
    = Returns r
    /\ length (types r) <= length (identifiers r)
    /\ length (identifiers r) <= 3.
Proof.
  destruct (types_are_the_typenames_of_the_identifiers
              (extractFrom findPosts
                 (resultWithPosts [five; seven; five]))
              (seen := map postEntity [five; seven; five])
              eq_refl)
    as (r & Hr & _ & Htypes & Hids).
  - intros e [<-|[<-|[<-|[]]]]; reflexivity.
  - exists r. split; [exact Hr|]. split; [exact Htypes | exact Hids].
Defined.

(** X18. buildTypeIdentifiers throws the TypeError of getOperationName
    whenever the operation name does not resolve, before the result is looked
    at: whatever the result is, missing or without data included. *)
Theorem buildTypeIdentifiers_throws_without_operation (options : UseInngestDataOptions)
    (Hname : nameResolves (params options) = false) :
  buildTypeIdentifiers options
  = Throws (TypeError "Cannot read properties of undefined (reading 'name')").
Proof.
  unfold buildTypeIdentifiers. rewrite (nameResolves_false_throws _ Hname). reflexivity.
Qed.

Lemma buildTypeIdentifiers_throws_without_operation_witness :
  buildTypeIdentifiers (extractFrom fragmentOnly None)
  = Throws (TypeError "Cannot read properties of undefined (reading 'name')").
Proof.
  apply (buildTypeIdentifiers_throws_without_operation (extractFrom fragmentOnly None)).
  reflexivity.
Defined.

(** ** The lists of the configuration *)

Lemma includes_incl (l l' : list string) (x : string) :
  incl l l' -> includes l x = true -> includes l' x = true.
Proof. rewrite !includes_In. intros H Hin. apply H. exact Hin. Qed.

(** X19. Widening the allow-list and narrowing the denylists only adds
    events: an input that is sent stays sent when sendOperations gains kinds
    and the types and schema coordinates denied lose entries. *)
Theorem lists_only_add_events (options : UseInngestDataOptions) (log : Logger)
    (allow allow' : option (list string)) (deny deny' : option Denylist.t)
    (Hallow : incl (sendOperationsOf (withLists options allow deny))
                   (sendOperationsOf (withLists options allow' deny')))
    (Htypes : incl (typeDenyListOf (withLists options allow' deny'))
                   (typeDenyListOf (withLists options allow deny)))
    (Hcoordinates : incl (schemaCoordinateDenyListOf (withLists options allow' deny'))
                         (schemaCoordinateDenyListOf (withLists options allow deny)))
    (Hsent : valueOf (shouldSendEvent (withLists options allow deny)) log = Returns true) :
  valueOf (shouldSendEvent (withLists options allow' deny')) log = Returns true.
Proof.
  destruct (isAnonymousOperation (params options)) as [anon|e] eqn:Hanon.
  - rewrite (shouldSendEvent_value (withLists options allow deny) log Hanon) in Hsent.
    rewrite (shouldSendEvent_value (withLists options allow' deny') log Hanon).
    assert (Hop : operationAllowed (withLists options allow deny) = true ->
                  operationAllowed (withLists options allow' deny') = true).
    { unfold operationAllowed. cbn [withLists params].
      intros H. apply andb_prop in H. destruct H as [-> H]. cbn [andb].
      exact (includes_incl _ Hallow H). }
    assert (Ht : denyType (withLists options allow deny) = false ->
                 denyType (withLists options allow' deny') = false).
    { rewrite !denyType_existsb. cbn [withLists params]. intros H.
      destruct (existsb _ _) eqn:E in |- *; [|reflexivity].
      rewrite <- H. symmetry. revert E. apply existsb_weaken. intros v.
      unfold resolvesToDeniedType. destruct (fieldType v); [|auto].
      apply includes_incl. exact Htypes. }
    assert (Hc : denySchemaCoordinate (withLists options allow deny) = false ->
                 denySchemaCoordinate (withLists options allow' deny') = false).
    { rewrite !denySchemaCoordinate_existsb. cbn [withLists params]. intros H.
      destruct (existsb _ _) eqn:E in |- *; [|reflexivity].
      rewrite <- H. symmetry. revert E. apply existsb_weaken. intros v.
      unfold onDeniedCoordinate. destruct (parentType v); [|auto].
      apply includes_incl. exact Hcoordinates. }
    change (hasErrors (withLists options allow' deny')) with (hasErrors options).
    change (hasErrors (withLists options allow deny)) with (hasErrors options) in Hsent.
    cbn [withLists params sendAnonymousOperations sendIntrospection sendErrors] in *.
    unfold cascade in *.
    destruct (operationAllowed (withLists options allow deny));
      [|discriminate Hsent].
    destruct (denyType (withLists options allow deny)); [discriminate Hsent|].
    destruct (denySchemaCoordinate (withLists options allow deny));
      [discriminate Hsent|].
    rewrite (Hop eq_refl), (Ht eq_refl), (Hc eq_refl). exact Hsent.
  - rewrite (shouldSendEvent_throws (withLists options allow deny) log Hanon) in Hsent.
    discriminate Hsent.
Qed.

(** Sent with queries allowed and User denied; still sent with mutations
    allowed as well and nothing denied. *)
Lemma lists_only_add_events_witness :
  valueOf (shouldSendEvent
             (withLists (noAllowList findPosts) (Some ["mutation"; "query"]) None)) []
  = Returns true.
Proof.
  apply (lists_only_add_events (noAllowList findPosts) []
           (Some ["query"]) (Some ["mutation"; "query"]) (denyTypes ["User"]) None).
  - intros x [<-|[]]. right. left. reflexivity.
  - intros x [].
  - intros x [].
  - reflexivity.
Defined.

(** ** Aliases and fields the schema does not define *)

Lemma fieldsOfSelection_withoutAlias schema sel :
  forall type parent,
    fieldsOfSelection schema type parent (withoutAlias sel)
    = fieldsOfSelection schema type parent sel.
Proof.
  induction sel as [alias name sels IH | name | typeCondition sels IH]
    using SelectionNode_ind'; intros type parent.
  - cbn [withoutAlias]. rewrite !fieldsOfSelection_Field. cbv zeta. f_equal.
    unfold fieldsOfSelectionSet.
    generalize (compositeOrUndefined schema
                  (outputOrUndefined schema
                     match parent with
                     | Some p => getFieldDef schema p name
                     | None => None
                     end)).
    generalize (outputOrUndefined schema
                  match parent with
                  | Some p => getFieldDef schema p name
                  | None => None
                  end).
    intros t p. induction IH as [|sel sels Hsel _ IHsels]; [reflexivity|].
    cbn [map fieldsOfSelections]. rewrite Hsel, IHsels. reflexivity.
  - reflexivity.
  - cbn [withoutAlias]. rewrite !fieldsOfSelection_InlineFragment.
    unfold fieldsOfSelectionSet.
    generalize (compositeOrUndefined schema
                  (outputOrUndefined schema
                     match typeCondition with
                     | Some condition => Some (NamedType condition)
                     | None => option_map (fun t => NamedType (getNamedType t)) type
                     end)).
    generalize (outputOrUndefined schema
                  match typeCondition with
                  | Some condition => Some (NamedType condition)
                  | None => option_map (fun t => NamedType (getNamedType t)) type
                  end).
    intros t p. induction IH as [|sel sels Hsel _ IHsels]; [reflexivity|].
    cbn [map fieldsOfSelections]. rewrite Hsel, IHsels. reflexivity.
Qed.

Lemma fieldsOfSelections_withoutAlias schema type parent sels :
  fieldsOfSelections schema type parent (map withoutAlias sels)
  = fieldsOfSelections schema type parent sels.
Proof.
  induction sels as [|sel sels IH]; [reflexivity|].
  cbn [map fieldsOfSelections]. rewrite fieldsOfSelection_withoutAlias, IH. reflexivity.
Qed.

Lemma fieldsOfDocument_withoutAliases schema defs :
  fieldsOfDocument schema {| definitions := map definitionWithoutAliases defs |}
  = fieldsOfDocument schema {| definitions := defs |}.
Proof.
  unfold fieldsOfDocument. cbn [definitions].
  induction defs as [|def defs IH]; [reflexivity|].
  cbn [map flat_map]. rewrite IH. f_equal.
  destruct def as [operation name sels | name typeCondition sels |]; cbn;
    try reflexivity; unfold fieldsOfSelectionSet;
    apply fieldsOfSelections_withoutAlias.
Qed.

(** X20. Aliases play no part in the three walkers: they give the same
    answer on a document and on the document with every alias taken off, so
    renaming a field in the response does not take it off a denylist. *)
Theorem aliases_do_not_move_the_walkers (options : UseInngestDataOptions) :
  let defs := definitions (document (args (params options))) in
  isIntrospectionQuery (paramsOver (params options) (map definitionWithoutAliases defs))
  = isIntrospectionQuery (params options)
  /\ denyType (withDefinitions options (map definitionWithoutAliases defs))
     = denyType options
  /\ denySchemaCoordinate (withDefinitions options (map definitionWithoutAliases defs))
     = denySchemaCoordinate options.
Proof.
  intros defs.
  rewrite !isIntrospectionQuery_existsb, !denyType_existsb, !denySchemaCoordinate_existsb.
  cbn [withDefinitions paramsOver params args schema document].
  rewrite !fieldsOfDocument_withoutAliases.
  unfold defs. destruct (document (args (params options))) as [ds]. cbn [definitions].
  auto.
Qed.

Lemma fieldsOfSelections_In_Field schema type parent alias name subsels sels :
  In (Field alias name subsels) sels ->
  exists declared,
    In {| fieldName := name; parentType := parent; fieldType := declared |}
       (fieldsOfSelections schema type parent sels).
Proof.
  induction sels as [|sel sels IH]; intros Hin; [destruct Hin|].
  cbn [fieldsOfSelections]. destruct Hin as [-> | Hin].
  - eexists. apply in_or_app. left. rewrite fieldsOfSelection_Field. left. reflexivity.
  - destruct (IH Hin) as [declared H]. exists declared. apply in_or_app. right. exact H.
Qed.

(** X21. A field selected at the top of an operation is denied by the
    coordinate made of the operation's root type and the field's name,
    whether or not the schema defines such a field and whatever else the
    document holds. *)
Theorem top_field_is_denied_by_its_coordinate (options : UseInngestDataOptions)
    (operation : OperationTypeNode) (name alias : option string) (field : string)
    (sels subsels : list SelectionNode) (rootType : string)
    (Hoperation : In (OperationDefinition operation name sels)
                     (definitions (document (args (params options)))))
    (Hfield : In (Field alias field subsels) sels)
    (Hroot : getRootType (schema (args (params options))) operation = Some rootType)
    (Hobject : isObjectType (schema (args (params options))) rootType = true)
    (Hdenied : In (rootType ++ "." ++ field) (schemaCoordinateDenyListOf options)) :
  denySchemaCoordinate options = true.
Proof.
  rewrite denySchemaCoordinate_existsb. apply existsb_exists.
  assert (Hcomposite : compositeOrUndefined (schema (args (params options)))
                         (Some (NamedType rootType)) = Some rootType).
  { unfold compositeOrUndefined, isCompositeType. cbn [option_map getNamedType].
    unfold isObjectType in Hobject.
    destruct (kindOf (schema (args (params options))) rootType) as [[]|];
      try discriminate Hobject; reflexivity. }
  destruct (fieldsOfSelections_In_Field (schema (args (params options)))
              (Some (NamedType rootType)) (Some rootType) alias field subsels sels
              Hfield) as [declared Hin].
  exists {| fieldName := field; parentType := Some rootType; fieldType := declared |}.
  split.
  - unfold fieldsOfDocument. apply in_flat_map.
    exists (OperationDefinition operation name sels). split; [exact Hoperation|].
    cbn [fieldsOfDefinition]. rewrite Hroot, Hobject.
    unfold fieldsOfSelectionSet. rewrite Hcomposite. exact Hin.
  - unfold onDeniedCoordinate. cbn [parentType fieldName].
    apply includes_In. exact Hdenied.
Qed.

(** [query { nowhere }], a field the schema does not define, with the
    coordinate Query.nowhere denied. *)
Lemma top_field_is_denied_by_its_coordinate_witness :
  getFieldDef testSchema "Query" "nowhere" = None
  /\ denySchemaCoordinate
       (queriesAllowed [OperationDefinition QUERY None [Field None "nowhere" []]]
                       None None (denyCoordinates ["Query.nowhere"]) false false false)
     = true.
Proof.
  split; [reflexivity|].
  apply (@top_field_is_denied_by_its_coordinate
           (queriesAllowed [OperationDefinition QUERY None [Field None "nowhere" []]]
                           None None (denyCoordinates ["Query.nowhere"]) false false false)
           QUERY None None "nowhere" [Field None "nowhere" []] [] "Query");
    try reflexivity; left; reflexivity.
Defined.
